(** * World Engine (Cardinal): archetype storage, query cache, CQL and the
      shard iterator.

    A shallow embedding of the Go sources and the properties proved of them.

    Conventions of the embedding:
    - a Go [int] supplied by a caller (an [ArchetypeIndex], a slot) is a [Z];
      the result of [len] and the counters copied from it are [nat];
    - a slice is a [list]; indexing out of range panics in Go, which is the
      result [None] here;
    - a method with a pointer receiver that mutates its receiver returns the
      new value of the receiver next to its result;
    - the archetype store owns its archetypes: [archs []*Archetype] is the
      list of the archetypes themselves, and a mutation through the pointer
      [Archetype(i)] is an update of slot [i]. *)

From Stdlib Require Import ZArith Lia.
From Stdlib Require Import Ascii String.
From stdpp Require Import base option list gmap strings pretty.

#[local] Open Scope Z_scope.

(* ================================================================== *)
(** * Part I: the program                                              *)
(* ================================================================== *)

(** ** Go slices *)
Module golang.

(** [s[i]] for an [int] index: a panic ([None]) outside [0 <= i < len(s)]. *)
Definition at_index {A : Type} (s : list A) (i : Z) : option A :=
  if decide (0 <= i) then s !! Z.to_nat i else None.

(** [s[i] = x] on an index already known to be in range. *)
Definition set_index {A : Type} (s : list A) (i : Z) (x : A) : list A :=
  <[Z.to_nat i := x]> s.

(** [s[:n]] for [n <= len(s)]. *)
Definition slice_to {A : Type} (s : list A) (n : nat) : list A := take n s.

End golang.

(** ** The layout filters *)
Module filter.

Section Filter.
Context (ComponentType : Type) `{!EqDecision ComponentType}.

(** Modelled from the spec: the filter package is not among the sources.
    The spec has five combinators, EXACT, CONTAINS, NOT, AND and OR, a
    tagged variant with one operation [matches(layout) -> bool]: EXACT
    holds of a layout set-equal to the listed component types, CONTAINS
    of a layout that is a superset of them, and the other three are the
    boolean connectives. *)
Inductive LayoutFilter : Type :=
| Exact (components : list ComponentType)
| Contains (components : list ComponentType)
| Not (f : LayoutFilter)
| And (f g : LayoutFilter)
| Or (f g : LayoutFilter).

Definition subset_of (xs ys : list ComponentType) : bool :=
  forallb (λ x, bool_decide (x ∈ ys)) xs.

Fixpoint MatchesLayout (f : LayoutFilter) (components : list ComponentType) : bool :=
  match f with
  | Exact cs => subset_of cs components && subset_of components cs
  | Contains cs => subset_of cs components
  | Not g => negb (MatchesLayout g components)
  | And g h => MatchesLayout g components && MatchesLayout h components
  | Or g h => MatchesLayout g components || MatchesLayout h components
  end.

End Filter.

Arguments Exact {ComponentType} _.
Arguments Contains {ComponentType} _.
Arguments Not {ComponentType} _.
Arguments And {ComponentType} _ _.
Arguments Or {ComponentType} _ _.
Arguments subset_of {ComponentType _} _ _.
Arguments MatchesLayout {ComponentType _} _ _.

End filter.

(** ** cardinal/internal/storage/archetype.go *)
Module storage.
Import golang.

(** [type ArchetypeIndex int] *)
Definition ArchetypeIndex : Type := Z.

Section Storage.
Context (Entity ComponentType : Type) `{!EqDecision ComponentType}.

(** Modelled from the spec: the [Layout] type, with its methods
    [Components] and [HasComponent], is not among the sources.  The spec
    has a Layout as a collection of component types whose equality is
    set equality; [HasComponent] is membership. *)
Record Layout : Type := mkLayout { Components : list ComponentType }.

Definition HasComponent (l : Layout) (componentType : ComponentType) : bool :=
  bool_decide (componentType ∈ Components l).

(** [type Archetype struct { index; entities; layout }] *)
Record Archetype : Type := mkArchetype {
  index : ArchetypeIndex;
  entities : list Entity;
  layout : Layout
}.

(** [NewArchetype]: [make([]entity.Entity, 0, 256)] is the empty slice. *)
Definition NewArchetype (i : ArchetypeIndex) (l : Layout) : Archetype :=
  {| index := i; entities := []; layout := l |}.

Definition Archetype_Layout (archetype : Archetype) : Layout := layout archetype.

Definition Entities (archetype : Archetype) : list Entity := entities archetype.

(** [SwapRemove]: both reads panic out of range; the write and the
    re-slicing are in range once the reads were. *)
Definition SwapRemove (archetype : Archetype) (entityIndex : Z)
  : option (Entity * Archetype) :=
  removed ← at_index (entities archetype) entityIndex;
  last ← at_index (entities archetype)
           (Z.of_nat (length (entities archetype)) - 1);
  let written := set_index (entities archetype) entityIndex last in
  Some (removed,
        {| index := index archetype;
           entities := slice_to written (length written - 1);
           layout := layout archetype |}).

(** The [for _, componentType := range components] loop of
    [LayoutMatches], with its early [return false]. *)
Fixpoint LayoutMatches_loop (l : Layout) (components : list ComponentType) : bool :=
  match components with
  | [] => true
  | componentType :: rest =>
      if negb (HasComponent l componentType) then false
      else LayoutMatches_loop l rest
  end.

Definition LayoutMatches (archetype : Archetype) (components : list ComponentType) : bool :=
  if negb (Nat.eqb (length (Components (layout archetype))) (length components))
  then false
  else LayoutMatches_loop (layout archetype) components.

Definition PushEntity (archetype : Archetype) (e : Entity) : Archetype :=
  {| index := index archetype;
     entities := entities archetype ++ [e];
     layout := layout archetype |}.

Definition Archetype_Count (archetype : Archetype) : nat :=
  length (entities archetype).

(** [type archetypeStorageImpl struct { archs []*Archetype }] *)
Record archetypeStorageImpl : Type := mkStore { archs : list Archetype }.

Definition NewArchetypeAccessor : archetypeStorageImpl := {| archs := [] |}.

Definition Archetypes (a : archetypeStorageImpl) : list Archetype := archs a.

Definition PushArchetype (a : archetypeStorageImpl) (i : ArchetypeIndex) (l : Layout)
  : archetypeStorageImpl :=
  {| archs := archs a ++ [ {| index := i; entities := []; layout := l |} ] |}.

Definition Count (a : archetypeStorageImpl) : nat := length (archs a).

(** [Archetype(index)]: [a.archs[index]], a panic out of range. *)
Definition Archetype_at (a : archetypeStorageImpl) (i : ArchetypeIndex)
  : option Archetype :=
  at_index (archs a) i.

(** The operations a client can perform on the store and, through the
    pointers [Archetype(i)] hands out, on its archetypes. *)
Inductive StoreOp : Type :=
| OpPushArchetype (i : ArchetypeIndex) (l : Layout)
| OpPushEntity (at_ : ArchetypeIndex) (e : Entity)
| OpSwapRemove (at_ : ArchetypeIndex) (entityIndex : Z).

(** One operation; [None] when it panics. *)
Definition store_step (a : archetypeStorageImpl) (op : StoreOp)
  : option archetypeStorageImpl :=
  match op with
  | OpPushArchetype i l => Some (PushArchetype a i l)
  | OpPushEntity at_ e =>
      archetype ← Archetype_at a at_;
      Some {| archs := set_index (archs a) at_ (PushEntity archetype e) |}
  | OpSwapRemove at_ entityIndex =>
      archetype ← Archetype_at a at_;
      '(_, archetype') ← SwapRemove archetype entityIndex;
      Some {| archs := set_index (archs a) at_ archetype' |}
  end.

Fixpoint store_run (a : archetypeStorageImpl) (ops : list StoreOp)
  : option archetypeStorageImpl :=
  match ops with
  | [] => Some a
  | op :: rest => a' ← store_step a op; store_run a' rest
  end.

(** Modelled from the spec: the archetype index ([storage.Index], with
    [Push] and [SearchFrom]) is not among the sources.  It records the
    layout of every archetype, in creation order; a search from [start]
    tests each layout at an index at or beyond [start] against the filter,
    in index order, and yields the indices of those that match. *)
Record Index : Type := mkIndex { layouts : list (list ComponentType) }.

Definition NewIndex : Index := {| layouts := [] |}.

Definition Index_Push (idx : Index) (l : Layout) : Index :=
  {| layouts := layouts idx ++ [Components l] |}.

(** The filter tests of a search over the layouts [ls], the first of which
    has index [i]: one test per layout, with its index and its outcome. *)
Fixpoint SearchFrom_tests (f : filter.LayoutFilter ComponentType) (i : nat)
    (ls : list (list ComponentType)) : list (nat * bool) :=
  match ls with
  | [] => []
  | l :: rest => (i, filter.MatchesLayout f l) :: SearchFrom_tests f (S i) rest
  end.

Definition SearchFrom (idx : Index) (f : filter.LayoutFilter ComponentType)
    (start : nat) : list ArchetypeIndex :=
  (λ t, Z.of_nat t.1)
    <$> filter (λ t, t.2 = true)
          (SearchFrom_tests f start (drop start (layouts idx))).

End Storage.

Arguments mkLayout {ComponentType} _.
Arguments Components {ComponentType} _.
Arguments HasComponent {ComponentType _} _ _.
Arguments mkArchetype {Entity ComponentType} _ _ _.
Arguments index {Entity ComponentType} _.
Arguments entities {Entity ComponentType} _.
Arguments layout {Entity ComponentType} _.
Arguments NewArchetype {Entity ComponentType} _ _.
Arguments Archetype_Layout {Entity ComponentType} _.
Arguments Entities {Entity ComponentType} _.
Arguments SwapRemove {Entity ComponentType} _ _.
Arguments LayoutMatches_loop {ComponentType _} _ _.
Arguments LayoutMatches {Entity ComponentType _} _ _.
Arguments PushEntity {Entity ComponentType} _ _.
Arguments Archetype_Count {Entity ComponentType} _.
Arguments mkStore {Entity ComponentType} _.
Arguments archs {Entity ComponentType} _.
Arguments NewArchetypeAccessor {Entity ComponentType}.
Arguments Archetypes {Entity ComponentType} _.
Arguments PushArchetype {Entity ComponentType} _ _ _.
Arguments Count {Entity ComponentType} _.
Arguments Archetype_at {Entity ComponentType} _ _.
Arguments OpPushArchetype {Entity ComponentType} _ _.
Arguments OpPushEntity {Entity ComponentType} _ _.
Arguments OpSwapRemove {Entity ComponentType} _ _.
Arguments store_step {Entity ComponentType} _ _.
Arguments store_run {Entity ComponentType} _ _.
Arguments mkIndex {ComponentType} _.
Arguments layouts {ComponentType} _.
Arguments NewIndex {ComponentType}.
Arguments Index_Push {ComponentType} _ _.
Arguments SearchFrom_tests {ComponentType _} _ _ _.
Arguments SearchFrom {ComponentType _} _ _ _.

End storage.

(** ** The query and its per-world cache (package cardinal) *)
Module cardinal.
Import golang.

(** [type WorldId int] *)
Abbreviation WorldId := Z (only parsing).

Section Query.
Context (Entity ComponentType EntryT : Type) `{!EqDecision ComponentType}.

(** The storage a world hands to a query: the archetype index and the
    archetype store (the component store is not used by queries). *)
Record StorageAccessor : Type := mkStorageAccessor {
  Index : storage.Index ComponentType;
  Archetypes : storage.archetypeStorageImpl Entity ComponentType
}.

(** The three methods of the [World] interface that a query calls. *)
Record World : Type := mkWorld {
  ID : WorldId;
  World_StorageAccessor : StorageAccessor;
  Entry : Entity → EntryT
}.

(** [type cache struct { archetypes []storage.ArchetypeIndex; seen int }] *)
Record cache : Type := mkCache {
  archetypes : list storage.ArchetypeIndex;
  seen : nat
}.

(** [type Query struct { layoutMatches map[WorldId]*cache; filter }] *)
Record Query : Type := mkQuery {
  layoutMatches : gmap Z cache;
  filter : filter.LayoutFilter ComponentType
}.

Definition NewQuery (f : filter.LayoutFilter ComponentType) : Query :=
  {| layoutMatches := ∅; filter := f |}.

(** The map of caches once the entry of world [w] exists: the
    [if _, ok := q.layoutMatches[w]; !ok] block of [evaluateQuery]. *)
Definition ensure_cache (q : Query) (w : WorldId) : gmap Z cache :=
  match layoutMatches q !! w with
  | Some _ => layoutMatches q
  | None => <[w := {| archetypes := []; seen := 0 |}]> (layoutMatches q)
  end.

(** The cache [evaluateQuery] works on. *)
Definition current_cache (q : Query) (w : WorldId) : cache :=
  default {| archetypes := []; seen := 0 |} (ensure_cache q w !! w).

(** The filter tests one call of [evaluateQuery] performs. *)
Definition evaluateQuery_tests (q : Query) (world : World)
    (accessor : StorageAccessor) : list (nat * bool) :=
  let c := current_cache q (ID world) in
  storage.SearchFrom_tests (filter q) (seen c)
    (drop (seen c) (storage.layouts (Index accessor))).

(** [evaluateQuery]: the cache is held by pointer, so its update is an
    update of the map entry. *)
Definition evaluateQuery (q : Query) (world : World) (accessor : StorageAccessor)
  : Query * list storage.ArchetypeIndex :=
  let w := ID world in
  let c := current_cache q w in
  let c' :=
    {| archetypes :=
         archetypes c ++ storage.SearchFrom (Index accessor) (filter q) (seen c);
       seen := storage.Count (Archetypes accessor) |} in
  ({| layoutMatches := <[w := c']> (ensure_cache q w); filter := filter q |},
   archetypes c').

(** Modelled from the spec: the entity iterator
    ([storage.NewEntityIterator], [HasNext], [Next]) is not among the
    sources.  It walks the matched archetype indices in order; [Next]
    yields the entity list of the archetype at the next index (a panic
    when the index is not in the store).  The loops
    [for iter.HasNext() { entities := iter.Next(); ... }] below recurse
    on the indices still to visit. *)
Fixpoint Each_loop {S : Type} (archs : storage.archetypeStorageImpl Entity ComponentType)
    (f : Entity → S → S) (indices : list storage.ArchetypeIndex) (s : S) : option S :=
  match indices with
  | [] => Some s
  | i :: rest =>
      archetype ← storage.Archetype_at archs i;
      Each_loop archs f rest (foldl (λ s e, f e s) s (storage.Entities archetype))
  end.

(** [Each]: the callback has no result; what it does is a change of the
    state [S] it closes over.  The storage is read once, before the loop: a
    callback that creates or removes entities of the world it is iterating
    over is outside this model. *)
Definition Each {S : Type} (q : Query) (w : World) (callback : EntryT → S → S) (s : S)
  : option (Query * S) :=
  let accessor := World_StorageAccessor w in
  let '(q', result) := evaluateQuery q w accessor in
  let f := λ e, callback (Entry w e) in
  s' ← Each_loop (Archetypes accessor) f result s;
  Some (q', s').

Fixpoint Count_loop (archs : storage.archetypeStorageImpl Entity ComponentType)
    (indices : list storage.ArchetypeIndex) (ret : nat) : option nat :=
  match indices with
  | [] => Some ret
  | i :: rest =>
      archetype ← storage.Archetype_at archs i;
      Count_loop archs rest (ret + length (storage.Entities archetype))%nat
  end.

Definition Count (q : Query) (w : World) : option (Query * nat) :=
  let accessor := World_StorageAccessor w in
  let '(q', result) := evaluateQuery q w accessor in
  ret ← Count_loop (Archetypes accessor) result 0%nat;
  Some (q', ret).

Fixpoint First_loop (archs : storage.archetypeStorageImpl Entity ComponentType)
    (indices : list storage.ArchetypeIndex) : option (option Entity) :=
  match indices with
  | [] => Some None
  | i :: rest =>
      archetype ← storage.Archetype_at archs i;
      match storage.Entities archetype with
      | e :: _ => Some (Some e)
      | [] => First_loop archs rest
      end
  end.

(** [First]: the result [(entry, ok)] is [Some entry] when [ok] and
    [None] otherwise. *)
Definition First (q : Query) (w : World) : option (Query * option EntryT) :=
  let accessor := World_StorageAccessor w in
  let '(q', result) := evaluateQuery q w accessor in
  match result with
  | [] => Some (q', None)
  | _ =>
      match First_loop (Archetypes accessor) result with
      | None => None
      | Some found => Some (q', Entry w <$> found)
      end
  end.

End Query.

Arguments mkStorageAccessor {Entity ComponentType} _ _.
Arguments Index {Entity ComponentType} _.
Arguments Archetypes {Entity ComponentType} _.
Arguments mkWorld {Entity ComponentType EntryT} _ _ _.
Arguments ID {Entity ComponentType EntryT} _.
Arguments World_StorageAccessor {Entity ComponentType EntryT} _.
Arguments Entry {Entity ComponentType EntryT} _ _.
Arguments NewQuery {ComponentType} _.
Arguments mkQuery {ComponentType} _ _.
Arguments layoutMatches {ComponentType} _.
Arguments filter {ComponentType} _.
Arguments ensure_cache {ComponentType} _ _.
Arguments current_cache {ComponentType} _ _.
Arguments evaluateQuery_tests {Entity ComponentType EntryT _} _ _ _.
Arguments evaluateQuery {Entity ComponentType EntryT _} _ _ _.
Arguments Each_loop {Entity ComponentType S} _ _ _ _.
Arguments Each {Entity ComponentType EntryT _ S} _ _ _ _.
Arguments Count_loop {Entity ComponentType} _ _ _.
Arguments Count {Entity ComponentType EntryT _} _ _.
Arguments First_loop {Entity ComponentType} _ _.
Arguments First {Entity ComponentType EntryT _} _ _.

End cardinal.

(** ** The Cardinal Query Language *)
Module cql.

(** Modelled from the spec: the CQL compiler is not among the sources, only
    its documentation is.  The grammar has the two call forms
    [EXACT(name, ...)] and [CONTAINS(name, ...)] over comma-separated
    component names, the prefix operator [!], which binds to the next
    primary, the binary operators [&] and [|], and parentheses.  The binary
    operators have no relative precedence: a flat sequence of them is folded
    from left to right.  A name that is not a registered component is a
    compile error. *)
Inductive token : Type :=
| TExact | TContains
| TName (name : string)
| TLParen | TRParen | TComma
| TNot | TAnd | TOr
| TIllegal (c : ascii).

Definition is_ident_char (c : ascii) : bool :=
  let n := Ascii.nat_of_ascii c in
  ((48 <=? n) && (n <=? 57) || (65 <=? n) && (n <=? 90)
   || (97 <=? n) && (n <=? 122) || (n =? 95))%nat.

Definition is_space (c : ascii) : bool :=
  let n := Ascii.nat_of_ascii c in
  ((n =? 32) || (n =? 9) || (n =? 10) || (n =? 13))%nat.

(** The token of a character that is not part of a word. *)
Definition symbol (c : ascii) : list token :=
  if is_space c then []
  else if Ascii.eqb c "(" then [TLParen]
  else if Ascii.eqb c ")" then [TRParen]
  else if Ascii.eqb c "," then [TComma]
  else if Ascii.eqb c "!" then [TNot]
  else if Ascii.eqb c "&" then [TAnd]
  else if Ascii.eqb c "|" then [TOr]
  else [TIllegal c].

(** The token of a finished word. *)
Definition flush (word : string) : list token :=
  if String.eqb word "" then []
  else if String.eqb word "EXACT" then [TExact]
  else if String.eqb word "CONTAINS" then [TContains]
  else [TName word].

Fixpoint lex_from (word : string) (text : string) : list token :=
  match text with
  | EmptyString => flush word
  | String c rest =>
      if is_ident_char c then lex_from (word +:+ String c EmptyString) rest
      else flush word ++ symbol c ++ lex_from "" rest
  end.

Definition lex (text : string) : list token := lex_from "" text.

Section Parser.
Context (ComponentType : Type).
(** The registry of component names of the world. *)
Context (componentByName : string → option ComponentType).

Abbreviation Filter := (filter.LayoutFilter ComponentType).

(** [name, name, ..., name )], after the opening parenthesis. *)
Fixpoint parse_names (ts : list token) : option (list ComponentType * list token) :=
  match ts with
  | TName name :: TRParen :: rest =>
      c ← componentByName name; Some ([c], rest)
  | TName name :: TComma :: rest =>
      c ← componentByName name;
      '(cs, r) ← parse_names rest;
      Some (c :: cs, r)
  | _ => None
  end.

(** A primary, a term (a primary followed by operators and primaries) and
    the left-to-right fold over the operators, by recursion on a bound
    [fuel] on the depth of the calls. *)
Fixpoint parse_primary (fuel : nat) (ts : list token) {struct fuel}
  : option (Filter * list token) :=
  match fuel with
  | O => None
  | S fuel' =>
      match ts with
      | TNot :: rest =>
          '(f, r) ← parse_primary fuel' rest; Some (filter.Not f, r)
      | TLParen :: rest =>
          '(f, r) ← parse_term fuel' rest;
          match r with
          | TRParen :: r' => Some (f, r')
          | _ => None
          end
      | TExact :: TLParen :: rest =>
          '(cs, r) ← parse_names rest; Some (filter.Exact cs, r)
      | TContains :: TLParen :: rest =>
          '(cs, r) ← parse_names rest; Some (filter.Contains cs, r)
      | _ => None
      end
  end
with parse_term (fuel : nat) (ts : list token) {struct fuel}
  : option (Filter * list token) :=
  match fuel with
  | O => None
  | S fuel' =>
      '(f, r) ← parse_primary fuel' ts; parse_ops fuel' f r
  end
with parse_ops (fuel : nat) (acc : Filter) (ts : list token) {struct fuel}
  : option (Filter * list token) :=
  match fuel with
  | O => None
  | S fuel' =>
      match ts with
      | TAnd :: rest =>
          '(g, r) ← parse_primary fuel' rest;
          parse_ops fuel' (filter.And acc g) r
      | TOr :: rest =>
          '(g, r) ← parse_primary fuel' rest;
          parse_ops fuel' (filter.Or acc g) r
      | _ => Some (acc, ts)
      end
  end.

(** Each call consumes a token or is followed by one that does, so twice
    the number of tokens bounds the depth. *)
Definition fuel_for (ts : list token) : nat := (2 * length ts + 2)%nat.

(** The compiler: the whole text must be one term. *)
Definition Parse (text : string) : option Filter :=
  match parse_term (fuel_for (lex text)) (lex text) with
  | Some (f, []) => Some f
  | _ => None
  end.

End Parser.

Arguments parse_names {ComponentType} _ _.
Arguments parse_primary {ComponentType} _ _ _.
Arguments parse_term {ComponentType} _ _ _.
Arguments parse_ops {ComponentType} _ _ _ _.
Arguments Parse {ComponentType} _ _.

End cql.

(** ** The shard iterator (package cardinal/router/iterator) *)
Module iterator.

(** The shard feed, as the spec has it: a paginated call that returns a page
    of epochs, each with an epoch number, a timestamp and a list of
    transactions (the numeric id of a message and opaque bytes), and a
    continuation key for the next page.  Bytes are integers in [0, 255]. *)
Record TxData : Type := mkTxData {
  TxId : Z;
  GameShardTransaction : list Z
}.

Record Epoch : Type := mkEpoch {
  Epoch_number : Z;
  UnixTimestamp : Z;
  Txs : list TxData
}.

(** [NextKey] is [None] when the response has no page or the page no key. *)
Record QueryTransactionsResponse : Type := mkResponse {
  Epochs : list Epoch;
  NextKey : option (list Z)
}.

Record QueryTransactionsRequest : Type := mkRequest {
  Namespace : string;
  PageKey : option (list Z)
}.

(** The key of a page that starts at a tick: the tick as eight bytes, most
    significant first (the tests read it back with
    [binary.BigEndian.Uint64]). *)
Definition tick_key (tick : Z) : list Z :=
  (λ k, (tick / 2 ^ (8 * (7 - k))) mod 256) <$> [0; 1; 2; 3; 4; 5; 6; 7].

(** The errors of an iteration. *)
Inductive Error : Type :=
| ErrRange
| ErrQuery (cause : string)
| ErrUnknownMessage (id : Z)
| ErrUnmarshal (id : Z)
| ErrDecode (id : Z)
| ErrCallback (cause : string).

(** The text of an error; the tests fix the text of the first and the
    third. *)
Definition Error_text (e : Error) : string :=
  match e with
  | ErrRange => "first number in range must be less than the second (start,stop)"
  | ErrQuery cause => "failed to query transactions: " +:+ cause
  | ErrUnknownMessage id =>
      "queried message with ID " +:+ pretty id +:+ ", but it does not exist in Cardinal"
  | ErrUnmarshal id => "failed to unmarshal transaction of message " +:+ pretty id
  | ErrDecode id => "failed to decode message " +:+ pretty id
  | ErrCallback cause => cause
  end.

(** The optional arguments [startTick?, stopTick?] of [Each]. *)
Inductive Ranges : Type :=
| NoRange
| From (start : Z)
| FromTo (start stop : Z).

(** How a call of [Each] ends: it returns [nil], returns an error, or a
    panic of the feed goes through it. *)
Inductive Outcome : Type :=
| Nil
| Err (e : Error)
| Panic.

(** How the walk over the epochs of one page ends. *)
Inductive PageEnd : Type :=
| EndOfPage
| StopReached
| Failed (e : Error).

Section Iterator.
(** The signed transaction, the decoded message value, the state the
    callback closes over and the state of the feed. *)
Context (Tx MsgValue St Q : Type).
(** The decoding of the wire bytes into a transaction, and its body. *)
Context (unmarshal : list Z → option Tx) (Body : Tx → list Z).

(** A registered message, by its codec. *)
Record Message : Type := mkMessage { Decode : list Z → option MsgValue }.

Record TxBatch : Type := mkTxBatch {
  Batch_Tx : Tx;
  MsgID : Z;
  Batch_MsgValue : MsgValue
}.

(** One invocation of the callback: the batch, the epoch number and the
    epoch timestamp. *)
Definition Call : Type := (list TxBatch * Z * Z)%type.

(** What a call of [Each] did: the invocations of the callback and the
    requests sent to the feed, in order, the final states and the outcome. *)
Record Run : Type := mkRun {
  calls : list Call;
  requests : list QueryTransactionsRequest;
  callback_state : St;
  feed_state : Q;
  outcome : Outcome
}.

(** The iterator: the lookup of the Message Registry, the namespace and the
    feed ([None] is a panic of the feed, [inl] a transport error). *)
Record Iterator : Type := mkIterator {
  getMessageByID : Z → option Message;
  namespace : string;
  QueryTransactions :
    Q → QueryTransactionsRequest → option (Q * (string + QueryTransactionsResponse))
}.

(** Modelled from the spec: the iterator itself is not among the sources,
    only its tests are.  The spec has: every transaction of an epoch is
    decoded with the message its id names in the Message Registry, and an id
    unknown there fails the iteration at once with an error that names the
    id. *)
Definition decode_tx (it : Iterator) (tx : TxData) : Error + TxBatch :=
  match getMessageByID it (TxId tx) with
  | None => inl (ErrUnknownMessage (TxId tx))
  | Some msg =>
      match unmarshal (GameShardTransaction tx) with
      | None => inl (ErrUnmarshal (TxId tx))
      | Some ptx =>
          match Decode msg (Body ptx) with
          | None => inl (ErrDecode (TxId tx))
          | Some v => inr {| Batch_Tx := ptx; MsgID := TxId tx; Batch_MsgValue := v |}
          end
      end
  end.

Fixpoint decode_batch (it : Iterator) (txs : list TxData) : Error + list TxBatch :=
  match txs with
  | [] => inr []
  | tx :: rest =>
      match decode_tx it tx with
      | inl e => inl e
      | inr b =>
          match decode_batch it rest with
          | inl e => inl e
          | inr bs => inr (b :: bs)
          end
      end
  end.

(** The stop bound is passed: the epoch lies beyond [stopTick].  The test
    [TestIteratorStopRange] fixes that such an epoch gets no callback
    (epochs 12 and 20 with [stopTick = 15]: one call). *)
Definition beyond_stop (stop : option Z) (e : Epoch) : bool :=
  match stop with
  | None => false
  | Some stopTick => bool_decide (Epoch_number e > stopTick)
  end.

(** Modelled from the spec: the walk over the epochs of one page.  The
    callback is invoked once per epoch with the fully decoded batch, the
    epoch number and the epoch timestamp; an error of the callback aborts the
    iteration and is the error of [Each]. *)
Fixpoint each_epochs (it : Iterator) (fn : St → Call → St * option string)
    (stop : option Z) (epochs : list Epoch) (s : St) : St * list Call * PageEnd :=
  match epochs with
  | [] => (s, [], EndOfPage)
  | e :: rest =>
      if beyond_stop stop e then (s, [], StopReached)
      else
        match decode_batch it (Txs e) with
        | inl err => (s, [], Failed err)
        | inr batch =>
            let call := (batch, Epoch_number e, UnixTimestamp e) in
            match fn s call with
            | (s', Some cause) => (s', [call], Failed (ErrCallback cause))
            | (s', None) =>
                let '(s'', cs, pe) := each_epochs it fn stop rest s' in
                (s'', call :: cs, pe)
            end
        end
  end.

(** A run that starts with the request [req] and the calls [cs] and goes on
    as [r]. *)
Definition after_page (req : QueryTransactionsRequest) (cs : list Call) (r : Run) : Run :=
  {| calls := cs ++ calls r;
     requests := req :: requests r;
     callback_state := callback_state r;
     feed_state := feed_state r;
     outcome := outcome r |}.

(** Modelled from the spec: the loop over the pages.  The continuation key of
    a response is the key of the next request; a transport error is the error
    of [Each]; a response without a key ends the iteration without error.
    [fuel] bounds the number of pages: [None] is a feed that has not ended
    within the bound. *)
Fixpoint each_pages (it : Iterator) (fn : St → Call → St * option string)
    (stop : option Z) (fuel : nat) (q : Q) (key : option (list Z)) (s : St)
  : option Run :=
  match fuel with
  | O => None
  | S fuel' =>
      let req := {| Namespace := namespace it; PageKey := key |} in
      match QueryTransactions it q req with
      | None => Some (mkRun [] [req] s q Panic)
      | Some (q', inl cause) => Some (mkRun [] [req] s q' (Err (ErrQuery cause)))
      | Some (q', inr res) =>
          match each_epochs it fn stop (Epochs res) s with
          | (s', cs, Failed err) => Some (mkRun cs [req] s' q' (Err err))
          | (s', cs, StopReached) => Some (mkRun cs [req] s' q' Nil)
          | (s', cs, EndOfPage) =>
              match NextKey res with
              | None => Some (mkRun cs [req] s' q' Nil)
              | Some next =>
                  after_page req cs <$> each_pages it fn stop fuel' q' (Some next) s'
              end
          end
      end
  end.

(** Modelled from the spec: [Each(callback, startTick?, stopTick?)].  With
    both ticks supplied, [startTick < stopTick] is required and its violation
    is reported before any call of the feed; the iteration starts at
    [startTick], 0 by default. *)
Definition Each (it : Iterator) (fuel : nat) (fn : St → Call → St * option string)
    (ranges : Ranges) (s : St) (q : Q) : option Run :=
  match ranges with
  | FromTo start stop =>
      if bool_decide (start >= stop) then Some (mkRun [] [] s q (Err ErrRange))
      else each_pages it fn (Some stop) fuel q (Some (tick_key start)) s
  | From start => each_pages it fn None fuel q (Some (tick_key start)) s
  | NoRange => each_pages it fn None fuel q (Some (tick_key 0)) s
  end.

End Iterator.

Arguments mkMessage {MsgValue} _.
Arguments Decode {MsgValue} _ _.
Arguments mkTxBatch {Tx MsgValue} _ _ _.
Arguments Batch_Tx {Tx MsgValue} _.
Arguments MsgID {Tx MsgValue} _.
Arguments Batch_MsgValue {Tx MsgValue} _.
Arguments mkRun {Tx MsgValue St Q} _ _ _ _ _.
Arguments calls {Tx MsgValue St Q} _.
Arguments requests {Tx MsgValue St Q} _.
Arguments callback_state {Tx MsgValue St Q} _.
Arguments feed_state {Tx MsgValue St Q} _.
Arguments outcome {Tx MsgValue St Q} _.
Arguments mkIterator {MsgValue Q} _ _ _.
Arguments getMessageByID {MsgValue Q} _ _.
Arguments namespace {MsgValue Q} _.
Arguments QueryTransactions {MsgValue Q} _ _ _.
Arguments decode_tx {Tx MsgValue Q} _ _ _ _.
Arguments decode_batch {Tx MsgValue Q} _ _ _ _.
Arguments each_epochs {Tx MsgValue St Q} _ _ _ _ _ _ _.
Arguments after_page {Tx MsgValue St Q} _ _ _.
Arguments each_pages {Tx MsgValue St Q} _ _ _ _ _ _ _ _ _.
Arguments Each {Tx MsgValue St Q} _ _ _ _ _ _ _ _.

End iterator.

(** ** The tests of the shard iterator (package iterator_test) *)
Module iterator_test.
Import iterator.

(** [type mockQuerier struct { i; retErr; ret; request }] *)
Record mockQuerier : Type := mkMock {
  i : nat;
  retErr : option string;
  ret : list QueryTransactionsResponse;
  request : option QueryTransactionsRequest
}.

(** [mockQuerier.QueryTransactions]: the request is recorded; the error,
    when set, is returned; otherwise the answer is [ret[i]] (a panic out of
    range) and the deferred [i++] runs. *)
Definition QueryTransactions (m : mockQuerier) (req : QueryTransactionsRequest)
  : option (mockQuerier * (string + QueryTransactionsResponse)) :=
  let m1 := {| i := i m; retErr := retErr m; ret := ret m; request := Some req |} in
  match retErr m with
  | Some e => Some (m1, inl e)
  | None =>
      res ← ret m !! i m;
      Some ({| i := S (i m); retErr := retErr m; ret := ret m;
               request := Some req |}, inr res)
  end.

(** [parsePageKey]: [binary.BigEndian.Uint64(key)], a panic on fewer than
    eight bytes. *)
Definition parsePageKey (key : list Z) : option Z :=
  match key with
  | b0 :: b1 :: b2 :: b3 :: b4 :: b5 :: b6 :: b7 :: _ =>
      Some (foldl (λ acc b, acc * 256 + b) 0 [b0; b1; b2; b3; b4; b5; b6; b7])
  | _ => None
  end.

(** A mock that answers with the pages [pages], one per call. *)
Definition scripted (pages : list QueryTransactionsResponse) : mockQuerier :=
  {| i := 0; retErr := None; ret := pages; request := None |}.

End iterator_test.

(* ================================================================== *)
(** * Part II: the vocabulary of the properties                        *)
(* ================================================================== *)

(** ** Archetypes and the store *)
Section StorageVocabulary.
Import storage.
Context {Entity ComponentType : Type}.

(** Two lists seen as sets of component types. *)
Definition set_equal (l1 l2 : list ComponentType) : Prop :=
  ∀ c, c ∈ l1 ↔ c ∈ l2.

(** The shape of an archetype that no operation changes. *)
Definition same_shape (x y : Archetype Entity ComponentType) : Prop :=
  layout y = layout x ∧ index y = index x.

Definition is_push (op : StoreOp Entity ComponentType) : bool :=
  match op with OpPushArchetype _ _ => true | _ => false end.

(** The entities of the archetype at index [i]. *)
Definition entities_at (archs : archetypeStorageImpl Entity ComponentType)
    (i : ArchetypeIndex) : list Entity :=
  from_option Entities [] (Archetype_at archs i).

(** The entities of the archetypes at [indices], archetype after archetype
    and slot after slot. *)
Definition matched_entities (archs : archetypeStorageImpl Entity ComponentType)
    (indices : list ArchetypeIndex) : list Entity :=
  indices ≫= entities_at archs.

(** Every index is an index of the store. *)
Definition indices_valid (archs : archetypeStorageImpl Entity ComponentType)
    (indices : list ArchetypeIndex) : Prop :=
  Forall (λ i, 0 <= i < Z.of_nat (Count archs)) indices.

End StorageVocabulary.

(** ** Queries *)
Section QueryVocabulary.
Import storage cardinal.
Context {Entity ComponentType EntryT : Type} `{!EqDecision ComponentType}.

(** The index and the store of a world grow together: an archetype is
    created by a push on both. *)
Definition accessor_synced (accessor : StorageAccessor Entity ComponentType) : Prop :=
  length (layouts (Index accessor)) = storage.Count (Archetypes accessor).

(** Every cached index is an index of the store. *)
Definition cache_valid (accessor : StorageAccessor Entity ComponentType) (c : cache)
  : Prop :=
  indices_valid (Archetypes accessor) (archetypes c).

(** The entries [Each] hands to its callback on [q] and [w]. *)
Definition visited (q : Query ComponentType) (w : World Entity ComponentType EntryT)
  : list EntryT :=
  Entry w <$> matched_entities (Archetypes (World_StorageAccessor w))
                (evaluateQuery q w (World_StorageAccessor w)).2.

End QueryVocabulary.

(** ** A concrete world *)
Module example.
Import storage cardinal.

(** Three archetypes, of layouts [{1,2}], [{3}] and [{1}]; the first holds
    the entities 10 and 20, the second 30, the third none.  The entry of
    an entity is its number plus 100. *)
Definition accessor0 : StorageAccessor nat nat :=
  {| Index := {| layouts := [[1%nat; 2%nat]; [3%nat]; [1%nat]] |};
     Archetypes :=
       {| archs := [ mkArchetype 0 [10%nat; 20%nat] (mkLayout [1%nat; 2%nat]);
                     mkArchetype 1 [30%nat] (mkLayout [3%nat]);
                     mkArchetype 2 [] (mkLayout [1%nat]) ] |} |}.

Definition w0 : World nat nat nat :=
  {| ID := 1; World_StorageAccessor := accessor0; Entry := λ e, (e + 100)%nat |}.

Definition q0 : Query nat := NewQuery (filter.Contains [1%nat]).

(** A callback that answers whether to go on, as the [func(entry *Entry)] that
    [Each] takes: a function literal that calls it and drops the answer. *)
Definition drop_answer {S EntryT : Type} (g : EntryT → S → S * bool)
  : EntryT → S → S :=
  λ entry s, (g entry s).1.

(** A callback that logs the entry and asks to stop. *)
Definition log_and_stop (entry : nat) (log : list nat) : list nat * bool :=
  (log ++ [entry], false).

(** The visits of an iteration that stops at the first [false]. *)
Fixpoint visits_until_false {EntryT : Type} (go_on : EntryT → bool)
    (entries : list EntryT) : list EntryT :=
  match entries with
  | [] => []
  | entry :: rest =>
      if go_on entry then entry :: visits_until_false go_on rest else [entry]
  end.

End example.

(** ** The CQL parser *)
Section ParserVocabulary.
Import cql.
Context {ComponentType : Type} (reg : string → option ComponentType).

(** The two binary operators. *)
Inductive binop : Type := OpAnd | OpOr.

Definition op_token (o : binop) : token :=
  match o with OpAnd => TAnd | OpOr => TOr end.

Definition op_filter (o : binop) (f g : filter.LayoutFilter ComponentType)
  : filter.LayoutFilter ComponentType :=
  match o with OpAnd => filter.And f g | OpOr => filter.Or f g end.

(** The remaining tokens do not start with a binary operator. *)
Definition no_op_head (ts : list token) : Prop :=
  match ts with
  | TAnd :: _ | TOr :: _ => False
  | _ => True
  end.

(** The tokens [ts] are one primary. *)
Definition primary_tokens (ts : list token) : Prop :=
  ∃ n g, parse_primary reg n ts = Some (g, []).

(** The text is one primary: a call form, a negation or a parenthesised
    query. *)
Definition primary_text (text : string) : Prop := primary_tokens (lex text).

End ParserVocabulary.

(** ** The shard iterator against its tests *)
Module iterator_examples.
Import iterator iterator_test.

(** The message [foo] of the tests, registered with the id 10; its value is
    the first byte of the body.  A transaction is its body. *)
Definition fooMsg : Message Z := {| Decode := λ body, head body |}.

Definition lookup_foo (id : Z) : option (Message Z) :=
  if bool_decide (id = 10) then Some fooMsg else None.

Definition lookup_none (id : Z) : option (Message Z) := None.

Definition New (lookup : Z → option (Message Z)) (ns : string)
  : Iterator Z mockQuerier :=
  mkIterator lookup ns QueryTransactions.

(** A callback that counts its calls. *)
Definition count_calls (called : nat) (c : Call (list Z) Z) : nat * option string :=
  (S called, None).

Definition run_each (it : Iterator Z mockQuerier) (ranges : Ranges) (m : mockQuerier)
  : option (Run (list Z) Z nat mockQuerier) :=
  Each Some id it 8 count_calls ranges 0%nat m.

(** The feed of [TestIteratorStopRange]: one page with the epochs 12 and
    20. *)
Definition stop_range_pages : list QueryTransactionsResponse :=
  [ {| Epochs := [ mkEpoch 12 15 [mkTxData 10 [3]]; mkEpoch 20 0 [] ];
       NextKey := None |} ].

End iterator_examples.

(** ** The shard iterator on a scripted feed *)
Section IteratorVocabulary.
Import iterator iterator_test.
Context {Tx MsgValue : Type}.
Context (unmarshal : list Z → option Tx) (Body : Tx → list Z).
Context (lookup : Z → option (Message MsgValue)) (ns : string).

(** [iterator.New(lookup, ns, querier)] over the mock of the tests. *)
Definition scripted_iterator : Iterator MsgValue mockQuerier :=
  mkIterator lookup ns QueryTransactions.

(** The epochs a feed serves: those of its pages, up to the first page
    without a continuation key. *)
Fixpoint served (pages : list QueryTransactionsResponse) : list Epoch :=
  match pages with
  | [] => []
  | p :: rest =>
      Epochs p ++ match NextKey p with None => [] | Some _ => served rest end
  end.

(** The feed ends: one of its pages has no continuation key. *)
Fixpoint feed_ends (pages : list QueryTransactionsResponse) : bool :=
  match pages with
  | [] => false
  | p :: rest => match NextKey p with None => true | Some _ => feed_ends rest end
  end.

(** The outcome of a run that walked all served epochs and ended as [pe]. *)
Definition outcome_of (pages : list QueryTransactionsResponse) (pe : PageEnd) : Outcome :=
  match pe with
  | Failed e => Err e
  | StopReached => Nil
  | EndOfPage => if feed_ends pages then Nil else Panic
  end.

Definition range_start (ranges : Ranges) : Z :=
  match ranges with NoRange => 0 | From start | FromTo start _ => start end.

Definition range_stop (ranges : Ranges) : option Z :=
  match ranges with FromTo _ stop => Some stop | _ => None end.

(** The precondition of [Each] on its ticks. *)
Definition range_ok (ranges : Ranges) : Prop :=
  match ranges with FromTo start stop => start < stop | _ => True end.

(** The epochs delivered to the callback: those before the first epoch
    beyond the stop bound. *)
Fixpoint up_to_stop (stop : option Z) (epochs : list Epoch) : list Epoch :=
  match epochs with
  | [] => []
  | e :: rest => if beyond_stop stop e then [] else e :: up_to_stop stop rest
  end.

(** The call an epoch is delivered with: its decoded batch, its number and
    its timestamp. *)
Definition call_of (e : Epoch) : option (Call Tx MsgValue) :=
  match decode_batch unmarshal Body scripted_iterator (Txs e) with
  | inr batch => Some (batch, Epoch_number e, UnixTimestamp e)
  | inl _ => None
  end.

(** The delivery in the words of the specification: the epochs up to and
    including the first one whose number is at or beyond [stopTick]. *)
Fixpoint through_stop (stopTick : Z) (epochs : list Epoch) : list Epoch :=
  match epochs with
  | [] => []
  | e :: rest =>
      if bool_decide (Epoch_number e >= stopTick) then [e]
      else e :: through_stop stopTick rest
  end.

(** The epoch numbers of the calls of a run. *)
Definition called_epochs {St Q : Type} (r : Run Tx MsgValue St Q) : list Z :=
  (λ c : Call Tx MsgValue, c.1.2) <$> calls r.

End IteratorVocabulary.

(** ** Runs of pushes and the index discipline of the store *)
Section StoreRunVocabulary.
Import storage.
Context {Entity ComponentType : Type}.

(** [PushArchetype] once per item, in order. *)
Definition push_all (a : archetypeStorageImpl Entity ComponentType)
    (items : list (ArchetypeIndex * Layout ComponentType))
  : archetypeStorageImpl Entity ComponentType :=
  foldl (λ a item, PushArchetype a item.1 item.2) a items.

(** Every archetype carries its own position as its index field. *)
Definition indexed (a : archetypeStorageImpl Entity ComponentType) : Prop :=
  ∀ (k : nat) arch, archs a !! k = Some arch → index arch = Z.of_nat k.

(** The caller's discipline: every [PushArchetype] of the run is given the
    archetype count of the moment as index; [n] is the count before the
    run. *)
Fixpoint disciplined_from (n : nat) (ops : list (StoreOp Entity ComponentType)) : Prop :=
  match ops with
  | [] => True
  | OpPushArchetype i _ :: rest => i = Z.of_nat n ∧ disciplined_from (S n) rest
  | _ :: rest => disciplined_from n rest
  end.

End StoreRunVocabulary.

(** ** A concrete store *)
Section StoreExample.
Import storage.

(** A store of two empty archetypes, of layouts [{1}] and [{2}]. *)
Definition two_archetypes : archetypeStorageImpl nat nat :=
  PushArchetype (PushArchetype NewArchetypeAccessor 0 (mkLayout [1%nat])) 1
    (mkLayout [2%nat]).

End StoreExample.

(** ** The cache of a query against the index *)
Section CacheVocabulary.
Import storage cardinal.
Context {ComponentType : Type} `{!EqDecision ComponentType}.

(** The cache holds what a search from scratch finds among the first [seen]
    layouts of the index. *)
Definition cache_exact (idx : storage.Index ComponentType)
    (f : filter.LayoutFilter ComponentType) (c : cache) : Prop :=
  (seen c <= length (layouts idx))%nat
  ∧ archetypes c = SearchFrom (mkIndex (take (seen c) (layouts idx))) f 0.

End CacheVocabulary.

(** ** Sequences of calls of the mock feed *)
Section MockVocabulary.
Import iterator iterator_test.

(** The calls [QueryTransactions(reqs[0])], [QueryTransactions(reqs[1])], ...
    on a mock, with their answers; [None] when one of them panics. *)
Fixpoint mock_calls (m : mockQuerier) (reqs : list QueryTransactionsRequest)
  : option (mockQuerier * list (string + QueryTransactionsResponse)) :=
  match reqs with
  | [] => Some (m, [])
  | req :: rest =>
      '(m1, answer) ← QueryTransactions m req;
      '(m2, answers) ← mock_calls m1 rest;
      Some (m2, answer :: answers)
  end.

(** The bytes of a key are bytes. *)
Definition valid_bytes (key : list Z) : Prop := Forall (λ b, 0 <= b < 256) key.

End MockVocabulary.

(* ================================================================== *)
(** * Part III: properties                                             *)
(* ================================================================== *)

(** ** Go slices *)
Section GoSlices.
Import golang.
Context {A : Type}.
Implicit Types (s : list A) (i : Z).

Lemma at_index_Some s i x :
  at_index s i = Some x ↔ 0 <= i ∧ s !! Z.to_nat i = Some x.
Proof.
  unfold at_index. case_decide.
  - split; [by intros ? | by intros [_ ?]].
  - split; [discriminate | intros [? _]; lia].
Qed.

Lemma at_index_of_nat s (n : nat) : at_index s (Z.of_nat n) = s !! n.
Proof.
  unfold at_index. rewrite decide_True by lia. by rewrite Nat2Z.id.
Qed.

Lemma at_index_in_range s i :
  0 <= i < Z.of_nat (length s) → is_Some (at_index s i).
Proof.
  intros [Hlo Hhi]. unfold at_index. rewrite decide_True by done.
  apply lookup_lt_is_Some. lia.
Qed.

Lemma at_index_lt s i x : at_index s i = Some x → 0 <= i < Z.of_nat (length s).
Proof.
  rewrite at_index_Some. intros [Hlo Hx]. apply lookup_lt_Some in Hx. lia.
Qed.

End GoSlices.

(** ** The archetype and its entity list *)
Section ArchetypeFacts.
Import golang storage.
Context {Entity ComponentType : Type} `{!EqDecision ComponentType}.
Implicit Types (archetype : Archetype Entity ComponentType) (e : Entity).

Lemma SwapRemove_in_range archetype (i : Z) removed archetype' :
  SwapRemove archetype i = Some (removed, archetype') →
  0 <= i < Z.of_nat (length (entities archetype)).
Proof.
  unfold SwapRemove. intros H.
  destruct (at_index (entities archetype) i) as [r|] eqn:Hr; [|done].
  by apply at_index_lt in Hr.
Qed.

(** C4. On an archetype with [n >= 1] entities and a slot [0 <= i < n],
    [SwapRemove i] returns the entity of slot [i]; the list is then one
    shorter, slot [i] holds the former last entity when [i < n-1], the other
    slots are as before, and layout and index are untouched.  [PushEntity]
    appends its entity at the end, so the length grows by one. *)
Theorem SwapRemove_PushEntity_spec archetype (i : Z) e
    (Hn : (1 <= length (entities archetype))%nat)
    (Hi : 0 <= i < Z.of_nat (length (entities archetype))) :
  (∃ removed archetype',
      SwapRemove archetype i = Some (removed, archetype')
      ∧ entities archetype !! Z.to_nat i = Some removed
      ∧ length (entities archetype') = (length (entities archetype) - 1)%nat
      ∧ (i < Z.of_nat (length (entities archetype)) - 1 →
         entities archetype' !! Z.to_nat i
         = entities archetype !! (length (entities archetype) - 1)%nat)
      ∧ (∀ j : nat, (j < length (entities archetype) - 1)%nat → j ≠ Z.to_nat i →
         entities archetype' !! j = entities archetype !! j)
      ∧ layout archetype' = layout archetype
      ∧ index archetype' = index archetype)
  ∧ entities (PushEntity archetype e) = entities archetype ++ [e]
  ∧ length (entities (PushEntity archetype e)) = S (length (entities archetype))
  ∧ entities (PushEntity archetype e) !! length (entities archetype) = Some e.
Proof.
  split.
  - destruct (at_index_in_range (entities archetype) i Hi) as [removed Hrem].
    destruct (at_index_in_range (entities archetype)
                (Z.of_nat (length (entities archetype)) - 1)) as [last Hlast];
      [lia|].
    exists removed.
    eexists. unfold SwapRemove. rewrite Hrem, Hlast. simpl.
    split; [reflexivity|]. simpl.
    apply at_index_Some in Hrem as [_ Hrem].
    apply at_index_Some in Hlast as [_ Hlast].
    replace (Z.to_nat (Z.of_nat (length (entities archetype)) - 1))
      with (length (entities archetype) - 1)%nat in Hlast by lia.
    unfold slice_to, set_index. rewrite length_insert.
    repeat split.
    + done.
    + rewrite length_take, length_insert. lia.
    + intros Hlt. rewrite lookup_take_lt by lia.
      rewrite list_lookup_insert_eq by lia. by rewrite Hlast.
    + intros j Hj Hne. rewrite lookup_take_lt by lia.
      by rewrite list_lookup_insert_ne.
  - unfold PushEntity; simpl. repeat split.
    + rewrite length_app. simpl. lia.
    + rewrite lookup_app_r by lia. by rewrite Nat.sub_diag.
Qed.

(** The loop of [LayoutMatches] succeeds when every listed component type
    is in the layout. *)
Lemma LayoutMatches_loop_true (l : Layout ComponentType) (cs : list ComponentType) :
  LayoutMatches_loop l cs = true ↔ ∀ c, c ∈ cs → c ∈ Components l.
Proof.
  induction cs as [|c cs IH]; simpl.
  - split; [intros _ c Hc; by apply elem_of_nil in Hc | done].
  - unfold HasComponent at 1. case_bool_decide as Hc; simpl.
    + rewrite IH. split.
      * intros Hall c' Hc'. apply elem_of_cons in Hc' as [->|Hc']; auto.
      * intros Hall c' Hc'. apply Hall. by right.
    + split; [done|]. intros Hall. exfalso. apply Hc, Hall. by left.
Qed.

(** What [LayoutMatches] computes on every input: equal lengths, and every
    listed component type in the layout. *)
Lemma LayoutMatches_true archetype (cs : list ComponentType) :
  LayoutMatches archetype cs = true
  ↔ length (Components (layout archetype)) = length cs
    ∧ ∀ c, c ∈ cs → c ∈ Components (layout archetype).
Proof.
  unfold LayoutMatches.
  destruct (Nat.eqb_spec (length (Components (layout archetype))) (length cs))
    as [Heq|Hne]; simpl.
  - rewrite LayoutMatches_loop_true. split; [by split | by intros [_ ?]].
  - split; [done | by intros [? _]].
Qed.

(** C5, as amended.  For a duplicate-free layout and a duplicate-free list
    of component types, [LayoutMatches] answers [true] exactly when the two
    are equal as sets. *)
Theorem LayoutMatches_exact_nodup archetype (cs : list ComponentType)
    (Hlayout : NoDup (Components (layout archetype)))
    (Hcs : NoDup cs) :
  LayoutMatches archetype cs = true
  ↔ set_equal (Components (layout archetype)) cs.
Proof.
  rewrite LayoutMatches_true. split.
  - intros [Hlen Hsub] c. split; [|apply Hsub].
    assert (cs ⊆+ Components (layout archetype)) as Hms
      by (apply NoDup_submseteq; [done | exact Hsub]).
    assert (Components (layout archetype) ≡ₚ cs) as Hperm.
    { symmetry. apply submseteq_length_Permutation; [done | lia]. }
    intros Hc. by rewrite <- Hperm.
  - intros Heq.
    assert (Components (layout archetype) ≡ₚ cs) as Hperm
      by (apply NoDup_Permutation; done).
    split; [by rewrite Hperm | intros c Hc; by apply Heq].
Qed.

End ArchetypeFacts.

(** C5, at a concrete archetype: a witness of the amended statement. *)
Lemma LayoutMatches_exact_nodup_witness :
  let a := storage.mkArchetype (Entity := nat) 0 [] (storage.mkLayout [1%nat; 2%nat]) in
  NoDup (storage.Components (storage.layout a)) ∧ NoDup [2%nat; 1%nat]
  ∧ (storage.LayoutMatches a [2%nat; 1%nat] = true
     ↔ set_equal (storage.Components (storage.layout a)) [2%nat; 1%nat]).
Proof.
  simpl.
  assert (NoDup [1%nat; 2%nat]) as H1 by (apply (bool_decide_unpack _); vm_compute; exact I).
  assert (NoDup [2%nat; 1%nat]) as H2 by (apply (bool_decide_unpack _); vm_compute; exact I).
  split; [exact H1|]. split; [exact H2|].
  exact (LayoutMatches_exact_nodup
           (storage.mkArchetype (Entity := nat) 0 [] (storage.mkLayout [1%nat; 2%nat]))
           [2%nat; 1%nat] H1 H2).
Defined.

(** C5, as stated, fails when a component type is repeated: against the
    layout [{1, 2}] the list [1, 1] has the right length and only members of
    the layout, so [LayoutMatches] answers [true], yet [{1, 2}] and [{1}]
    differ as sets. *)
Lemma LayoutMatches_repeated_counterexample :
  let a := storage.mkArchetype (Entity := nat) 0 [] (storage.mkLayout [1%nat; 2%nat]) in
  storage.LayoutMatches a [1%nat; 1%nat] = true
  ∧ ¬ set_equal (storage.Components (storage.layout a)) [1%nat; 1%nat]
  ∧ ¬ (storage.LayoutMatches a [1%nat; 1%nat] = true
       ↔ set_equal (storage.Components (storage.layout a)) [1%nat; 1%nat]).
Proof.
  simpl.
  assert (¬ set_equal [1%nat; 2%nat] [1%nat; 1%nat]) as Hne.
  { intros Heq. specialize (Heq 2%nat). destruct Heq as [Heq _].
    assert (2%nat ∈ [1%nat; 1%nat]) as Hin.
    { apply Heq. apply elem_of_cons. right. apply elem_of_cons. by left. }
    apply elem_of_cons in Hin as [Hin|Hin]; [discriminate|].
    apply list_elem_of_singleton in Hin. discriminate. }
  split; [reflexivity|]. split; [exact Hne|].
  intros [Hto _]. apply Hne, Hto. reflexivity.
Qed.

(** C4, at a concrete archetype: slot 0 of three entities is removed. *)
Lemma SwapRemove_PushEntity_spec_witness :
  let a := storage.mkArchetype (ComponentType := nat) 7 [10%nat; 20%nat; 30%nat]
             (storage.mkLayout []) in
  (1 <= length (storage.entities a))%nat
  ∧ 0 <= 0 < Z.of_nat (length (storage.entities a))
  ∧ ∃ removed a',
      storage.SwapRemove a 0 = Some (removed, a')
      ∧ length (storage.entities a') = 2%nat.
Proof.
  simpl. split; [lia|]. split; [lia|].
  destruct (SwapRemove_PushEntity_spec
              (storage.mkArchetype (ComponentType := nat) 7 [10%nat; 20%nat; 30%nat]
                 (storage.mkLayout []))
              0 40%nat ltac:(simpl; lia) ltac:(simpl; lia))
    as [(removed & a' & Hrun & _ & Hlen & _) _].
  exists removed, a'. split; [exact Hrun | exact Hlen].
Defined.

(** ** The archetype store *)
Section StoreFacts.
Import golang storage.
Context {Entity ComponentType : Type}.
Implicit Types (a : archetypeStorageImpl Entity ComponentType)
               (op : StoreOp Entity ComponentType).

Lemma PushArchetype_Count a i l : Count (PushArchetype a i l) = S (Count a).
Proof. unfold Count, PushArchetype; simpl. rewrite length_app; simpl. lia. Qed.

Lemma PushArchetype_old a i l (j : Z) :
  0 <= j < Z.of_nat (Count a) →
  Archetype_at (PushArchetype a i l) j = Archetype_at a j.
Proof.
  intros [Hlo Hhi]. unfold Archetype_at, at_index, PushArchetype, Count in *.
  simpl. repeat case_decide; try lia. apply lookup_app_l. lia.
Qed.

Lemma PushArchetype_new a i l :
  Archetype_at (PushArchetype a i l) (Z.of_nat (Count a)) = Some (NewArchetype i l).
Proof.
  unfold Archetype_at, PushArchetype, Count; simpl. rewrite at_index_of_nat.
  rewrite lookup_app_r by lia. by rewrite Nat.sub_diag.
Qed.

(** Replacing slot [at_] by an archetype of the same shape keeps every
    slot's shape. *)
Lemma set_index_same_shape a (at_ : Z) old new i arch :
  Archetype_at a at_ = Some old → same_shape old new →
  Archetype_at a i = Some arch →
  ∃ arch', at_index (set_index (archs a) at_ new) i = Some arch'
           ∧ same_shape arch arch'.
Proof.
  unfold Archetype_at. intros Hold Hshape Hi.
  apply at_index_Some in Hold as [Hat Hold].
  apply at_index_Some in Hi as [Hi0 Hi].
  unfold set_index.
  destruct (decide (Z.to_nat at_ = Z.to_nat i)) as [Heq|Hne].
  - exists new. split.
    + apply at_index_Some. split; [done|]. rewrite <- Heq.
      apply list_lookup_insert_eq. by apply lookup_lt_Some in Hold.
    + rewrite Heq in Hold. by replace arch with old by congruence.
  - exists arch. split; [|done].
    apply at_index_Some. split; [done|]. by rewrite list_lookup_insert_ne.
Qed.

Lemma store_step_Count a op a' :
  store_step a op = Some a' →
  Count a' = (Count a + (if is_push op then 1 else 0))%nat.
Proof.
  destruct op as [i l|at_ e|at_ ei]; simpl.
  - intros [= <-]. rewrite PushArchetype_Count. lia.
  - destruct (Archetype_at a at_) as [x|]; simpl; [|done].
    intros [= <-]. unfold Count, set_index; simpl. rewrite length_insert. lia.
  - destruct (Archetype_at a at_) as [x|]; simpl; [|done].
    destruct (SwapRemove x ei) as [[r x']|]; simpl; [|done].
    intros [= <-]. unfold Count, set_index; simpl. rewrite length_insert. lia.
Qed.

Lemma store_step_shape a op a' i arch :
  store_step a op = Some a' → Archetype_at a i = Some arch →
  ∃ arch', Archetype_at a' i = Some arch' ∧ same_shape arch arch'.
Proof.
  destruct op as [j l|at_ e|at_ ei]; simpl.
  - intros [= <-] Hi. exists arch. split; [|done].
    rewrite PushArchetype_old; [done|].
    apply at_index_lt in Hi. exact Hi.
  - destruct (Archetype_at a at_) as [x|] eqn:Hx; simpl; [|done].
    intros [= <-] Hi. unfold Archetype_at at 1; simpl.
    by apply (set_index_same_shape a at_ x).
  - destruct (Archetype_at a at_) as [x|] eqn:Hx; simpl; [|done].
    destruct (SwapRemove x ei) as [[r x']|] eqn:Hsr; simpl; [|done].
    intros [= <-] Hi. unfold Archetype_at at 1; simpl.
    apply (set_index_same_shape a at_ x); [done| |done].
    unfold SwapRemove in Hsr.
    destruct (at_index (entities x) ei); simpl in Hsr; [|done].
    destruct (at_index (entities x) _); simpl in Hsr; [|done].
    injection Hsr as _ <-. done.
Qed.

(** C6. Along every run of operations on the archetype store that does not
    panic, [Count] never decreases (it grows by the number of
    [PushArchetype] calls) and every archetype that was in the store is
    still at its index with the same layout and the same index field; a
    [PushArchetype] raises [Count] by exactly one, puts the new archetype at
    the end and leaves [Archetype(j)] as it was at every index valid
    before. *)
Theorem store_append_only a ops a' (Hrun : store_run a ops = Some a') :
  (Count a <= Count a')%nat
  ∧ Count a' = (Count a + length (filter (λ op, is_push op = true) ops))%nat
  ∧ (∀ i arch, Archetype_at a i = Some arch →
       ∃ arch', Archetype_at a' i = Some arch' ∧ same_shape arch arch')
  ∧ (∀ i l,
       Count (PushArchetype a i l) = S (Count a)
       ∧ archs (PushArchetype a i l) = archs a ++ [NewArchetype i l]
       ∧ Archetype_at (PushArchetype a i l) (Z.of_nat (Count a))
         = Some (NewArchetype i l)
       ∧ ∀ j, 0 <= j < Z.of_nat (Count a) →
           Archetype_at (PushArchetype a i l) j = Archetype_at a j).
Proof.
  assert (Count a' = (Count a + length (filter (λ op, is_push op = true) ops))%nat
          ∧ ∀ i arch, Archetype_at a i = Some arch →
              ∃ arch', Archetype_at a' i = Some arch' ∧ same_shape arch arch')
    as [Hcount Hkeep].
  { revert a Hrun. induction ops as [|op ops IH]; intros a Hrun; simpl in Hrun.
    - injection Hrun as <-. split; [simpl; lia|].
      intros i arch Hi. by exists arch.
    - destruct (store_step a op) as [a1|] eqn:Hstep; simpl in Hrun; [|done].
      destruct (IH a1 Hrun) as [Hc Hk]. split.
      + rewrite Hc, (store_step_Count _ _ _ Hstep), filter_cons.
        destruct (is_push op); simpl; lia.
      + intros i arch Hi.
        destruct (store_step_shape _ _ _ _ _ Hstep Hi) as (arch1 & Hi1 & [Hl1 Hx1]).
        destruct (Hk i arch1 Hi1) as (arch' & Hi' & [Hl' Hx']).
        exists arch'. split; [done|]. split; congruence. }
  split; [lia|]. split; [done|]. split; [done|].
  intros i l. split; [apply PushArchetype_Count|]. split; [done|].
  split; [apply PushArchetype_new|]. intros j Hj. by apply PushArchetype_old.
Qed.

End StoreFacts.

(** C6, at a concrete run: two archetypes are pushed, an entity is added to
    the first and removed again. *)
Lemma store_append_only_witness :
  let ops : list (storage.StoreOp nat nat) :=
    [storage.OpPushArchetype 0 (storage.mkLayout [1%nat]);
     storage.OpPushEntity 0 5%nat;
     storage.OpPushArchetype 1 (storage.mkLayout [2%nat]);
     storage.OpSwapRemove 0 0] in
  ∃ a', storage.store_run storage.NewArchetypeAccessor ops = Some a'
        ∧ storage.Count a' = 2%nat.
Proof.
  simpl. eexists. split; [reflexivity|].
  exact (proj1 (proj2 (store_append_only storage.NewArchetypeAccessor
           [storage.OpPushArchetype 0 (storage.mkLayout [1%nat]);
            storage.OpPushEntity 0 5%nat;
            storage.OpPushArchetype 1 (storage.mkLayout [2%nat]);
            storage.OpSwapRemove 0 0] _ eq_refl))).
Defined.

(** ** The archetype index and its searches *)
Section SearchFacts.
Import storage.
Context {ComponentType : Type} `{!EqDecision ComponentType}.
Implicit Types (f : filter.LayoutFilter ComponentType)
               (ls : list (list ComponentType)) (idx : Index ComponentType).

Lemma SearchFrom_tests_indices f i ls :
  (SearchFrom_tests f i ls).*1 = seq i (length ls).
Proof.
  revert i. induction ls as [|l ls IH]; intros i; simpl; [done|].
  by rewrite IH.
Qed.

Lemma SearchFrom_tests_outcome f i ls n b :
  (n, b) ∈ SearchFrom_tests f i ls →
  (i <= n)%nat ∧ ∃ l, ls !! (n - i)%nat = Some l ∧ b = filter.MatchesLayout f l.
Proof.
  revert i. induction ls as [|l ls IH]; intros i; simpl.
  - intros H. by apply elem_of_nil in H.
  - intros H. apply elem_of_cons in H as [[= -> ->]|H].
    + split; [lia|]. exists l. by rewrite Nat.sub_diag.
    + destruct (IH _ H) as (Hle & l' & Hl' & ->). split; [lia|].
      exists l'. split; [|done].
      replace (n - i)%nat with (S (n - S i)) by lia. done.
Qed.

(** A test of a search from [start] is on an index at or beyond [start],
    on the layout recorded there. *)
Lemma SearchFrom_tests_from idx f start n b :
  (n, b) ∈ SearchFrom_tests f start (drop start (layouts idx)) →
  (start <= n)%nat
  ∧ ∃ l, layouts idx !! n = Some l ∧ b = filter.MatchesLayout f l.
Proof.
  intros H. apply SearchFrom_tests_outcome in H as (Hle & l & Hl & ->).
  split; [done|]. exists l. split; [|done].
  rewrite lookup_drop in Hl. by replace (start + (n - start))%nat with n in Hl by lia.
Qed.

Lemma SearchFrom_tests_done idx f start :
  (length (layouts idx) <= start)%nat →
  SearchFrom_tests f start (drop start (layouts idx)) = [].
Proof. intros H. by rewrite drop_ge. Qed.

Lemma SearchFrom_done idx f start :
  (length (layouts idx) <= start)%nat → SearchFrom idx f start = [].
Proof. intros H. unfold SearchFrom. by rewrite SearchFrom_tests_done. Qed.

(** The indices a search yields are those of layouts in the index. *)
Lemma SearchFrom_in_range idx f start i :
  i ∈ SearchFrom idx f start → 0 <= i < Z.of_nat (length (layouts idx)).
Proof.
  unfold SearchFrom. intros H.
  apply list_elem_of_fmap in H as ([n b] & -> & H).
  apply list_elem_of_filter in H as [_ H].
  apply SearchFrom_tests_from in H as (_ & l & Hl & _).
  apply lookup_lt_Some in Hl. simpl. lia.
Qed.

End SearchFacts.

(** ** The query cache *)
Section QueryFacts.
Import storage cardinal.
Context {Entity ComponentType EntryT : Type} `{!EqDecision ComponentType}.
Implicit Types (q : Query ComponentType) (w : World Entity ComponentType EntryT)
               (accessor : StorageAccessor Entity ComponentType) (c : cache).

Lemma ensure_cache_lookup q (wid : Z) :
  ensure_cache q wid !! wid = Some (current_cache q wid).
Proof.
  unfold current_cache, ensure_cache.
  destruct (layoutMatches q !! wid) as [c|] eqn:Hc.
  - by rewrite Hc.
  - by rewrite lookup_insert_eq.
Qed.

Lemma current_cache_Some q (wid : Z) c :
  layoutMatches q !! wid = Some c → current_cache q wid = c.
Proof. intros H. unfold current_cache, ensure_cache. by rewrite H, H. Qed.

Lemma current_cache_None q (wid : Z) :
  layoutMatches q !! wid = None →
  current_cache q wid = {| archetypes := []; seen := 0 |}.
Proof.
  intros H. unfold current_cache, ensure_cache. by rewrite H, lookup_insert_eq.
Qed.

Lemma evaluateQuery_cache q w accessor :
  layoutMatches (evaluateQuery q w accessor).1 !! ID w
  = Some {| archetypes := (evaluateQuery q w accessor).2;
            seen := storage.Count (Archetypes accessor) |}.
Proof. unfold evaluateQuery; simpl. by rewrite lookup_insert_eq. Qed.

Lemma evaluateQuery_result q w accessor :
  (evaluateQuery q w accessor).2
  = archetypes (current_cache q (ID w))
    ++ SearchFrom (Index accessor) (filter q) (seen (current_cache q (ID w))).
Proof. done. Qed.

(** Once the mark is at the archetype count, an evaluation tests nothing
    and changes nothing. *)
Lemma evaluateQuery_stable q w accessor c :
  accessor_synced accessor →
  layoutMatches q !! ID w = Some c →
  seen c = storage.Count (Archetypes accessor) →
  evaluateQuery_tests q w accessor = []
  ∧ evaluateQuery q w accessor = (q, archetypes c).
Proof.
  intros Hsync Hc Hseen.
  unfold evaluateQuery_tests, evaluateQuery.
  rewrite (current_cache_Some _ _ _ Hc). simpl.
  assert (length (layouts (Index accessor)) <= seen c)%nat as Hle
    by (rewrite Hseen, Hsync; lia).
  split; [by apply SearchFrom_tests_done|].
  rewrite SearchFrom_done by done. rewrite app_nil_r.
  f_equal. destruct q as [m f]; simpl in *. f_equal.
  unfold ensure_cache; simpl. rewrite Hc.
  apply insert_id. rewrite Hc. f_equal. destruct c; simpl in *. by subst.
Qed.

(** C1. An evaluation of [q] against [w] tests the archetypes from the
    high-water mark [seen] up to the end of the index, each once and in
    order, so only indices at or beyond the mark; it appends to the cached
    list exactly the tested indices whose test succeeded, and leaves the
    mark at the store's archetype count.  Hence a second evaluation with no
    archetype created in between (the same storage, index and store in
    step) performs no filter test, leaves the cache, and so the mark, as it
    is, and returns the same result. *)
Theorem evaluateQuery_incremental q w accessor :
  let c := current_cache q (ID w) in
  let tests := evaluateQuery_tests q w accessor in
  let q1 := (evaluateQuery q w accessor).1 in
  let result := (evaluateQuery q w accessor).2 in
  tests.*1 = seq (seen c) (length (layouts (Index accessor)) - seen c)
  ∧ (∀ n b, (n, b) ∈ tests →
       (seen c <= n)%nat
       ∧ ∃ l, layouts (Index accessor) !! n = Some l
              ∧ b = filter.MatchesLayout (filter q) l)
  ∧ result
    = archetypes c ++ (Z.of_nat <$> (base.filter (λ t, t.2 = true) tests).*1)
  ∧ layoutMatches q1 !! ID w
    = Some {| archetypes := result; seen := storage.Count (Archetypes accessor) |}
  ∧ filter q1 = filter q
  ∧ (accessor_synced accessor →
       evaluateQuery_tests q1 w accessor = []
       ∧ evaluateQuery q1 w accessor = (q1, result)
       ∧ seen (current_cache (evaluateQuery q1 w accessor).1 (ID w))
         = seen (current_cache q1 (ID w))).
Proof.
  intros c tests q1 result.
  split.
  { unfold tests, evaluateQuery_tests. fold c.
    rewrite SearchFrom_tests_indices. by rewrite length_drop. }
  split.
  { intros n b H. by apply SearchFrom_tests_from in H. }
  split.
  { unfold result. rewrite evaluateQuery_result. fold c. f_equal.
    unfold SearchFrom, tests, evaluateQuery_tests. fold c.
    by rewrite <- list_fmap_compose. }
  split; [apply evaluateQuery_cache|].
  split; [done|].
  intros Hsync.
  destruct (evaluateQuery_stable q1 w accessor _ Hsync
              (evaluateQuery_cache q w accessor) eq_refl) as [Ht He].
  split; [done|]. split; [done|]. by rewrite He.
Qed.

End QueryFacts.

(** ** Iterating over the matched archetypes *)
Section IterationFacts.
Import storage cardinal.
Context {Entity ComponentType EntryT : Type} `{!EqDecision ComponentType}.
Implicit Types (q : Query ComponentType) (w : World Entity ComponentType EntryT)
               (archs : archetypeStorageImpl Entity ComponentType)
               (indices : list ArchetypeIndex).

Lemma Archetype_at_valid archs i :
  0 <= i < Z.of_nat (storage.Count archs) → is_Some (Archetype_at archs i).
Proof. apply at_index_in_range. Qed.

Lemma Each_loop_spec {S : Type} archs (f : Entity → S → S) indices (s : S) :
  indices_valid archs indices →
  Each_loop archs f indices s
  = Some (foldl (λ s e, f e s) s (matched_entities archs indices)).
Proof.
  intros Hv. revert s. induction Hv as [|i indices Hi _ IH]; intros s; [done|].
  destruct (Archetype_at_valid archs i Hi) as [x Hx].
  simpl. rewrite Hx. simpl. rewrite IH.
  unfold matched_entities. simpl. rewrite foldl_app.
  unfold entities_at at 2. by rewrite Hx.
Qed.

Lemma Count_loop_spec archs indices (ret : nat) :
  indices_valid archs indices →
  Count_loop archs indices ret
  = Some (ret + length (matched_entities archs indices))%nat.
Proof.
  intros Hv. revert ret. induction Hv as [|i indices Hi _ IH]; intros ret.
  - simpl. f_equal. unfold matched_entities; simpl. lia.
  - destruct (Archetype_at_valid archs i Hi) as [x Hx].
    simpl. rewrite Hx. simpl. rewrite IH.
    unfold matched_entities. simpl. rewrite length_app.
    unfold entities_at at 2. rewrite Hx. simpl. f_equal. lia.
Qed.

Lemma First_loop_spec archs indices :
  indices_valid archs indices →
  First_loop archs indices = Some (head (matched_entities archs indices)).
Proof.
  intros Hv. induction Hv as [|i indices Hi _ IH]; [done|].
  destruct (Archetype_at_valid archs i Hi) as [x Hx].
  simpl. rewrite Hx. simpl.
  unfold matched_entities. simpl. unfold entities_at at 1. rewrite Hx. simpl.
  destruct (Entities x) as [|e es]; [exact IH | done].
Qed.

(** The head of the matched entities is the first entity of the first
    archetype, in the order of [indices], that has an entity at all. *)
Lemma head_matched_entities archs indices e :
  head (matched_entities archs indices) = Some e →
  ∃ (k : nat) i rest,
    indices !! k = Some i
    ∧ entities_at archs i = e :: rest
    ∧ ∀ (k' : nat) i', (k' < k)%nat → indices !! k' = Some i' →
        entities_at archs i' = [].
Proof.
  induction indices as [|i indices IH]; [done|].
  unfold matched_entities. simpl.
  destruct (entities_at archs i) as [|e0 es] eqn:Hi; simpl.
  - intros H. destruct (IH H) as (k & i1 & rest & Hk & He & Hbefore).
    exists (S k), i1, rest. split; [done|]. split; [done|].
    intros [|k'] i' Hlt Hk'; simpl in Hk'.
    + by injection Hk' as <-.
    + apply (Hbefore k'); [lia | done].
  - intros [= ->]. exists 0%nat, i, es. split; [done|]. split; [done|].
    intros k' i' Hlt. lia.
Qed.

Lemma foldl_snoc {B : Type} (acc xs : list B) :
  foldl (λ log x, log ++ [x]) acc xs = acc ++ xs.
Proof.
  revert acc. induction xs as [|x xs IH]; intros acc; simpl.
  - by rewrite app_nil_r.
  - rewrite IH. by rewrite <- app_assoc.
Qed.

Lemma foldl_fmap_entry {S : Type} (g : Entity → EntryT) (callback : EntryT → S → S)
    (es : list Entity) (s : S) :
  foldl (λ s e, callback (g e) s) s es = foldl (λ s entry, callback entry s) s (g <$> es).
Proof. revert s. induction es as [|e es IH]; intros s; simpl; [done | apply IH]. Qed.

(** The result of an evaluation only has indices of the store, when the
    cache did and the index and the store are in step. *)
Lemma evaluateQuery_valid q w :
  accessor_synced (World_StorageAccessor w) →
  cache_valid (World_StorageAccessor w) (current_cache q (ID w)) →
  indices_valid (Archetypes (World_StorageAccessor w))
    (evaluateQuery q w (World_StorageAccessor w)).2.
Proof.
  intros Hsync Hvalid. rewrite evaluateQuery_result.
  apply Forall_app. split; [exact Hvalid|].
  apply Forall_forall. intros i Hi. apply SearchFrom_in_range in Hi.
  unfold accessor_synced in Hsync. by rewrite <- Hsync.
Qed.

(** The two invariants under which queries are evaluated hold of a new
    world and a new query, and are kept by the creation of an archetype and by
    an evaluation. *)
Lemma accessor_synced_new :
  accessor_synced (mkStorageAccessor (Entity := Entity) (ComponentType := ComponentType)
                     NewIndex NewArchetypeAccessor).
Proof. done. Qed.

Lemma accessor_synced_push (accessor : StorageAccessor Entity ComponentType) i l :
  accessor_synced accessor →
  accessor_synced (mkStorageAccessor (Index_Push (Index accessor) l)
                     (PushArchetype (Archetypes accessor) i l)).
Proof.
  unfold accessor_synced, Index_Push, PushArchetype, storage.Count. simpl.
  intros H. rewrite !length_app. simpl. lia.
Qed.

Lemma cache_valid_new (accessor : StorageAccessor Entity ComponentType)
    (f : filter.LayoutFilter ComponentType) (wid : Z) :
  cache_valid accessor (current_cache (NewQuery f) wid).
Proof.
  unfold cache_valid. rewrite current_cache_None by apply lookup_empty.
  apply Forall_nil_2.
Qed.

Lemma cache_valid_push (accessor : StorageAccessor Entity ComponentType) c i l :
  cache_valid accessor c →
  cache_valid (mkStorageAccessor (Index_Push (Index accessor) l)
                 (PushArchetype (Archetypes accessor) i l)) c.
Proof.
  unfold cache_valid, indices_valid. simpl. intros H.
  apply (Forall_impl _ _ _ H). intros j Hj.
  unfold storage.Count, PushArchetype in *. simpl.
  rewrite length_app. simpl. lia.
Qed.

Lemma cache_valid_evaluateQuery q w :
  accessor_synced (World_StorageAccessor w) →
  cache_valid (World_StorageAccessor w) (current_cache q (ID w)) →
  cache_valid (World_StorageAccessor w)
    (current_cache (evaluateQuery q w (World_StorageAccessor w)).1 (ID w)).
Proof.
  intros Hsync Hvalid.
  rewrite (current_cache_Some _ _ _ (evaluateQuery_cache q w (World_StorageAccessor w))).
  by apply evaluateQuery_valid.
Qed.

End IterationFacts.

(** ** Each, Count and First *)
Section EachCountFirst.
Import storage cardinal.
Context {Entity ComponentType EntryT : Type} `{!EqDecision ComponentType}.
Implicit Types (q : Query ComponentType) (w : World Entity ComponentType EntryT).

(** What a call of [Each] returns, for every callback and state. *)
Lemma Each_run {S : Type} q w (callback : EntryT → S → S) (s : S) :
  accessor_synced (World_StorageAccessor w) →
  cache_valid (World_StorageAccessor w) (current_cache q (ID w)) →
  Each q w callback s
  = Some ((evaluateQuery q w (World_StorageAccessor w)).1,
          foldl (λ s entry, callback entry s) s (visited q w)).
Proof.
  intros Hsync Hvalid. unfold Each.
  pose proof (evaluateQuery_valid q w Hsync Hvalid) as Hv.
  unfold visited.
  destruct (evaluateQuery q w (World_StorageAccessor w)) as [q' result].
  simpl in *. rewrite Each_loop_spec by done. simpl.
  by rewrite (foldl_fmap_entry (Entry w) callback).
Qed.

(** C2, as amended.  The callback of [Each] has no result, so there is no
    early stop and nothing is reported: [Each] returns normally after
    calling the callback exactly once on every entity of every matching
    archetype, in cached archetype order and then slot order. *)
Theorem Each_visits_every_entity {S : Type} q w (callback : EntryT → S → S) (s : S)
    (Hsync : accessor_synced (World_StorageAccessor w))
    (Hvalid : cache_valid (World_StorageAccessor w) (current_cache q (ID w))) :
  Each q w callback s
  = Some ((evaluateQuery q w (World_StorageAccessor w)).1,
          foldl (λ s entry, callback entry s) s (visited q w))
  ∧ Each q w (λ entry log, log ++ [entry]) []
    = Some ((evaluateQuery q w (World_StorageAccessor w)).1, visited q w).
Proof.
  split; [by apply Each_run|].
  rewrite Each_run by done. by rewrite foldl_snoc.
Qed.

(** C10. [First] answers [ok = false] exactly when [Count] is zero; when
    [ok = true] the entry is that of the first entity of the first matching
    archetype, in cached order, whose entity list is not empty, which is the
    entry [Each] visits first. *)
Theorem First_spec q w
    (Hsync : accessor_synced (World_StorageAccessor w))
    (Hvalid : cache_valid (World_StorageAccessor w) (current_cache q (ID w))) :
  let archs := Archetypes (World_StorageAccessor w) in
  let result := (evaluateQuery q w (World_StorageAccessor w)).2 in
  ∃ q' found (n : nat),
    First q w = Some (q', found)
    ∧ cardinal.Count q w = Some (q', n)
    ∧ (found = None ↔ n = 0%nat)
    ∧ (∀ entry, found = Some entry →
         ∃ (k : nat) i e rest,
           result !! k = Some i
           ∧ entities_at archs i = e :: rest
           ∧ entry = Entry w e
           ∧ ∀ (k' : nat) i', (k' < k)%nat → result !! k' = Some i' →
               entities_at archs i' = [])
    ∧ ∃ log, Each q w (λ entry log, log ++ [entry]) [] = Some (q', log)
             ∧ found = head log.
Proof.
  intros archs result.
  pose proof (evaluateQuery_valid q w Hsync Hvalid) as Hv. fold archs result in Hv.
  exists (evaluateQuery q w (World_StorageAccessor w)).1,
         (Entry w <$> head (matched_entities archs result)),
         (length (matched_entities archs result)).
  assert (First q w
          = Some ((evaluateQuery q w (World_StorageAccessor w)).1,
                  Entry w <$> head (matched_entities archs result))) as HF.
  { unfold First. unfold result, archs in *.
    destruct (evaluateQuery q w (World_StorageAccessor w)) as [q' r]. simpl in *.
    destruct r as [|i r]; [done|]. by rewrite First_loop_spec. }
  assert (cardinal.Count q w
          = Some ((evaluateQuery q w (World_StorageAccessor w)).1,
                  length (matched_entities archs result))) as HC.
  { unfold cardinal.Count. unfold result, archs in *.
    destruct (evaluateQuery q w (World_StorageAccessor w)) as [q' r]. simpl in *.
    by rewrite Count_loop_spec. }
  split; [exact HF|]. split; [exact HC|]. split.
  { destruct (matched_entities archs result); simpl; split; congruence. }
  split.
  { intros entry Hentry.
    destruct (head (matched_entities archs result)) as [e|] eqn:He; [|done].
    injection Hentry as <-.
    destruct (head_matched_entities archs result e He)
      as (k & i & rest & Hk & Hi & Hbefore).
    by exists k, i, e, rest. }
  exists (visited q w). split.
  - rewrite Each_run by done. by rewrite foldl_snoc.
  - unfold visited. fold archs result.
    by destruct (matched_entities archs result).
Qed.

End EachCountFirst.


Lemma example_synced : accessor_synced example.accessor0.
Proof. reflexivity. Qed.

Lemma example_cache_valid :
  cache_valid example.accessor0 (cardinal.current_cache example.q0 1).
Proof. apply Forall_nil_2. Qed.

(** C1, at the concrete world: the first evaluation tests the three
    archetypes, the second none. *)
Lemma evaluateQuery_incremental_witness :
  accessor_synced example.accessor0
  ∧ cardinal.evaluateQuery_tests example.q0 example.w0 example.accessor0
    = [(0%nat, true); (1%nat, false); (2%nat, true)]
  ∧ cardinal.evaluateQuery_tests
      (cardinal.evaluateQuery example.q0 example.w0 example.accessor0).1
      example.w0 example.accessor0 = [].
Proof.
  split; [reflexivity|]. split; [reflexivity|].
  exact (proj1 (proj2 (proj2 (proj2 (proj2 (proj2
           (evaluateQuery_incremental example.q0 example.w0 example.accessor0)))))
           eq_refl)).
Defined.

(** C2, at the concrete world: the two entities of the first archetype are
    visited, the empty third archetype adds none. *)
Lemma Each_visits_every_entity_witness :
  accessor_synced example.accessor0
  ∧ cache_valid example.accessor0 (cardinal.current_cache example.q0 1)
  ∧ visited example.q0 example.w0 = [110%nat; 120%nat]
  ∧ cardinal.Each example.q0 example.w0 (λ entry log, log ++ [entry]) []
    = Some ((cardinal.evaluateQuery example.q0 example.w0 example.accessor0).1,
            visited example.q0 example.w0).
Proof.
  split; [reflexivity|]. split; [apply Forall_nil_2|]. split; [reflexivity|].
  exact (proj2 (Each_visits_every_entity example.q0 example.w0
                  (λ entry log, log ++ [entry]) []
                  example_synced example_cache_valid)).
Defined.

(** C2, as stated, fails: a callback that asks to stop at the first entity
    is still called on the second one.  [Each] takes a [func(entry *Entry)], so
    the answer [false] has nowhere to go. *)
Lemma Each_early_stop_counterexample :
  ∃ q', cardinal.Each example.q0 example.w0
          (example.drop_answer example.log_and_stop) []
        = Some (q', [110%nat; 120%nat])
        ∧ example.visits_until_false (λ _, false) (visited example.q0 example.w0)
          = [110%nat]
        ∧ [110%nat; 120%nat] ≠ [110%nat].
Proof.
  eexists. split; [reflexivity|]. split; [reflexivity | discriminate].
Qed.

(** C10, at the concrete world: [First] finds the entry of entity 10 and
    [Count] is 2. *)
Lemma First_spec_witness :
  accessor_synced example.accessor0
  ∧ cache_valid example.accessor0 (cardinal.current_cache example.q0 1)
  ∧ ∃ q' found (n : nat),
      cardinal.First example.q0 example.w0 = Some (q', found)
      ∧ cardinal.Count example.q0 example.w0 = Some (q', n)
      ∧ (found = None ↔ n = 0%nat).
Proof.
  split; [reflexivity|]. split; [apply Forall_nil_2|].
  destruct (First_spec example.q0 example.w0 example_synced example_cache_valid)
    as (q' & found & n & HF & HC & Hiff & _).
  exists q', found, n. split; [exact HF|]. split; [exact HC | exact Hiff].
Defined.

(** ** The CQL lexer *)
Section LexFacts.
Import cql.

(** A character that is not part of a word ends the word before it: the
    text is lexed piece by piece on both sides of it. *)
Lemma lex_from_split (word s1 : string) (c : ascii) (s2 : string) :
  is_ident_char c = false →
  lex_from word (s1 +:+ String c s2)
  = lex_from word s1 ++ symbol c ++ lex_from "" s2.
Proof.
  intros Hc. revert word. induction s1 as [|d s1 IH]; intros word; simpl.
  - by rewrite Hc.
  - destruct (is_ident_char d); [apply IH|].
    rewrite IH. by rewrite <- !app_assoc.
Qed.

Lemma lex_from_symbol (c : ascii) (s : string) :
  is_ident_char c = false →
  lex_from "" (String c s) = symbol c ++ lex_from "" s.
Proof. intros Hc. simpl. by rewrite Hc. Qed.

(** The tokens of [A op B], with [op] one of [" & "] and [" | "]. *)
Lemma lex_and (A B : string) :
  lex (A +:+ " & " +:+ B) = lex A ++ TAnd :: lex B.
Proof.
  unfold lex. change (" & " +:+ B) with (String " " (String "&" (String " " B))).
  rewrite lex_from_split by done.
  rewrite lex_from_symbol by done. by rewrite lex_from_symbol by done.
Qed.

Lemma lex_or (A B : string) :
  lex (A +:+ " | " +:+ B) = lex A ++ TOr :: lex B.
Proof.
  unfold lex. change (" | " +:+ B) with (String " " (String "|" (String " " B))).
  rewrite lex_from_split by done.
  rewrite lex_from_symbol by done. by rewrite lex_from_symbol by done.
Qed.

(** The tokens of [(A) op B], the closing parenthesis written before the
    operator. *)
Lemma lex_paren_and (A B : string) :
  lex ("(" +:+ A +:+ ") & " +:+ B) = TLParen :: lex A ++ TRParen :: TAnd :: lex B.
Proof.
  unfold lex. change ("(" +:+ A +:+ ") & " +:+ B)
    with (String "(" (A +:+ String ")" (String " " (String "&" (String " " B))))).
  rewrite lex_from_symbol by done.
  rewrite lex_from_split by done.
  do 3 rewrite lex_from_symbol by done. done.
Qed.

Lemma lex_paren_or (A B : string) :
  lex ("(" +:+ A +:+ ") | " +:+ B) = TLParen :: lex A ++ TRParen :: TOr :: lex B.
Proof.
  unfold lex. change ("(" +:+ A +:+ ") | " +:+ B)
    with (String "(" (A +:+ String ")" (String " " (String "|" (String " " B))))).
  rewrite lex_from_symbol by done.
  rewrite lex_from_split by done.
  do 3 rewrite lex_from_symbol by done. done.
Qed.

End LexFacts.

(** ** The CQL parser *)
Section ParserFacts.
Import cql.
Context {ComponentType : Type} (reg : string → option ComponentType).
Implicit Types (ts r x : list token) (f g acc : filter.LayoutFilter ComponentType).

Lemma parse_ops_op n o acc ts :
  parse_ops reg (S n) acc (op_token o :: ts)
  = '(g, r) ← parse_primary reg n ts; parse_ops reg n (op_filter o acc g) r.
Proof. by destruct o. Qed.

Lemma parse_ops_stop n acc ts :
  no_op_head ts → parse_ops reg (S n) acc ts = Some (acc, ts).
Proof. by destruct ts as [|[] ts]. Qed.

Lemma parse_ops_cases ts :
  (∃ o rest, ts = op_token o :: rest) ∨ no_op_head ts.
Proof.
  destruct ts as [|t rest]; [by right|].
  destruct t; try (by right).
  - left. by exists OpAnd, rest.
  - left. by exists OpOr, rest.
Qed.

(** More fuel does not change a result. *)
Lemma parse_mono n :
  (∀ ts res m, parse_primary reg n ts = Some res → (n <= m)%nat →
     parse_primary reg m ts = Some res)
  ∧ (∀ ts res m, parse_term reg n ts = Some res → (n <= m)%nat →
     parse_term reg m ts = Some res)
  ∧ (∀ acc ts res m, parse_ops reg n acc ts = Some res → (n <= m)%nat →
     parse_ops reg m acc ts = Some res).
Proof.
  induction n as [|n (IHp & IHt & IHo)]; [by repeat split|].
  split; [|split].
  - intros ts res [|m] H Hle; [lia|]. assert (n <= m)%nat as Hnm by lia.
    simpl in *. destruct ts as [|t rest]; [done|].
    destruct t; try done.
    + destruct (parse_term reg n rest) as [[f r]|] eqn:Ht; [|done].
      by rewrite (IHt _ _ m Ht Hnm).
    + destruct (parse_primary reg n rest) as [[f r]|] eqn:Hp; [|done].
      by rewrite (IHp _ _ m Hp Hnm).
  - intros ts res [|m] H Hle; [lia|]. assert (n <= m)%nat as Hnm by lia.
    simpl in *.
    destruct (parse_primary reg n ts) as [[f r]|] eqn:Hp; [|done].
    rewrite (IHp _ _ m Hp Hnm). simpl in *. by apply IHo.
  - intros acc ts res [|m] H Hle; [lia|]. assert (n <= m)%nat as Hnm by lia.
    destruct (parse_ops_cases ts) as [(o & rest & ->)|Hstop].
    + rewrite parse_ops_op in *.
      destruct (parse_primary reg n rest) as [[g r]|] eqn:Hp; [|done].
      rewrite (IHp _ _ m Hp Hnm). simpl in *. by apply IHo.
    + rewrite parse_ops_stop in * by done. done.
Qed.

Lemma parse_primary_mono n m ts res :
  parse_primary reg n ts = Some res → (n <= m)%nat →
  parse_primary reg m ts = Some res.
Proof. apply parse_mono. Qed.

Lemma parse_term_mono n m ts res :
  parse_term reg n ts = Some res → (n <= m)%nat → parse_term reg m ts = Some res.
Proof. apply parse_mono. Qed.

Lemma parse_ops_mono n m acc ts res :
  parse_ops reg n acc ts = Some res → (n <= m)%nat →
  parse_ops reg m acc ts = Some res.
Proof. apply parse_mono. Qed.

(** Tokens after the end of what was parsed are left as they are. *)
Lemma parse_names_frame ts cs r x :
  parse_names reg ts = Some (cs, r) → parse_names reg (ts ++ x) = Some (cs, r ++ x).
Proof.
  revert cs r. induction ts as [ts IH] using (induction_ltof1 _ (@length token)).
  unfold ltof in IH. intros cs r H.
  destruct ts as [|[] [|[] rest]]; try done; simpl in *.
  - destruct (reg name) as [c|]; [|done]. simpl in *. by injection H as <- <-.
  - destruct (reg name) as [c|]; [|done]. simpl in *.
    destruct (parse_names reg rest) as [[cs' r']|] eqn:Hrest; [|done].
    simpl in *. injection H as <- <-.
    rewrite (IH rest ltac:(simpl; lia) _ _ Hrest). done.
Qed.

Lemma parse_frame n :
  (∀ ts f r x, parse_primary reg n ts = Some (f, r) →
     parse_primary reg n (ts ++ x) = Some (f, r ++ x))
  ∧ (∀ ts f r x, parse_term reg n ts = Some (f, r) → no_op_head (r ++ x) →
     parse_term reg n (ts ++ x) = Some (f, r ++ x))
  ∧ (∀ acc ts f r x, parse_ops reg n acc ts = Some (f, r) → no_op_head (r ++ x) →
     parse_ops reg n acc (ts ++ x) = Some (f, r ++ x)).
Proof.
  induction n as [|n (IHp & IHt & IHo)]; [by repeat split|].
  split; [|split].
  - intros ts f r x H. simpl in *.
    destruct ts as [|t rest]; [done|]. destruct t; try done; simpl.
    + destruct rest as [|[] rest]; try done. simpl in *.
      destruct (parse_names reg rest) as [[cs r']|] eqn:Hn; [|done].
      simpl in *. injection H as <- <-.
      by rewrite (parse_names_frame _ _ _ x Hn).
    + destruct rest as [|[] rest]; try done. simpl in *.
      destruct (parse_names reg rest) as [[cs r']|] eqn:Hn; [|done].
      simpl in *. injection H as <- <-.
      by rewrite (parse_names_frame _ _ _ x Hn).
    + destruct (parse_term reg n rest) as [[f' r']|] eqn:Ht; [|done].
      simpl in *. destruct r' as [|[] r']; try done.
      injection H as <- <-.
      by rewrite (IHt _ _ _ x Ht I).
    + destruct (parse_primary reg n rest) as [[f' r']|] eqn:Hp; [|done].
      simpl in *. injection H as <- <-.
      by rewrite (IHp _ _ _ x Hp).
  - intros ts f r x H Hx. simpl in *.
    destruct (parse_primary reg n ts) as [[g r']|] eqn:Hp; [|done].
    rewrite (IHp _ _ _ x Hp). simpl in *. by apply IHo.
  - intros acc ts f r x H Hx.
    destruct (parse_ops_cases ts) as [(o & rest & ->)|Hstop].
    + rewrite <- app_comm_cons. rewrite parse_ops_op in *.
      destruct (parse_primary reg n rest) as [[g r']|] eqn:Hp; [|done].
      rewrite (IHp _ _ _ x Hp). simpl in *. by apply IHo.
    + rewrite parse_ops_stop in H by done. injection H as <- <-.
      by rewrite parse_ops_stop.
Qed.

Lemma parse_primary_frame n ts f r x :
  parse_primary reg n ts = Some (f, r) →
  parse_primary reg n (ts ++ x) = Some (f, r ++ x).
Proof. apply parse_frame. Qed.

Lemma parse_term_frame n ts f r x :
  parse_term reg n ts = Some (f, r) → no_op_head (r ++ x) →
  parse_term reg n (ts ++ x) = Some (f, r ++ x).
Proof. apply parse_frame. Qed.

(** A fold that reached the end of its tokens goes on into the tokens put
    after them. *)
Lemma parse_ops_continue n m acc ts f x res :
  parse_ops reg n acc ts = Some (f, []) →
  parse_ops reg m f x = Some res →
  parse_ops reg (n + m) acc (ts ++ x) = Some res.
Proof.
  revert acc ts. induction n as [|n IH]; intros acc ts H Hx; [done|].
  destruct (parse_ops_cases ts) as [(o & rest & ->)|Hstop].
  - rewrite <- app_comm_cons. change (S n + m)%nat with (S (n + m)).
    rewrite parse_ops_op in *.
    destruct (parse_primary reg n rest) as [[g r]|] eqn:Hp; [|done].
    simpl in H.
    rewrite (parse_primary_mono n (n + m) _ _
               (parse_primary_frame _ _ _ _ x Hp) ltac:(lia)).
    simpl. exact (IH _ _ H Hx).
  - rewrite parse_ops_stop in H by done. injection H as <- ->.
    change ([] ++ x) with x. apply (parse_ops_mono m); [done | lia].
Qed.

Lemma parse_term_continue n m ts f x res :
  parse_term reg n ts = Some (f, []) →
  parse_ops reg m f x = Some res →
  parse_term reg (n + m) (ts ++ x) = Some res.
Proof.
  destruct n as [|n]; [done|]. intros H Hx. simpl in *.
  destruct (parse_primary reg n ts) as [[g r]|] eqn:Hp; [|done].
  simpl in H.
  rewrite (parse_primary_mono n (n + m) _ _
             (parse_primary_frame _ _ _ _ x Hp) ltac:(lia)).
  simpl. exact (parse_ops_continue n m g r f x res H Hx).
Qed.

(** Where a fold stops does not depend on the filter it started from. *)
Lemma parse_ops_any_acc n acc acc' ts f r :
  parse_ops reg n acc ts = Some (f, r) →
  ∃ f', parse_ops reg n acc' ts = Some (f', r).
Proof.
  revert acc acc' ts. induction n as [|n IH]; intros acc acc' ts H; [done|].
  destruct (parse_ops_cases ts) as [(o & rest & ->)|Hstop].
  - rewrite parse_ops_op in *.
    destruct (parse_primary reg n rest) as [[g r']|] eqn:Hp; [|done].
    simpl in *. by apply (IH (op_filter o acc g)).
  - rewrite parse_ops_stop in * by done. injection H as <- <-. by eexists.
Qed.

(** An operator followed by the tokens of a term: the fold goes to the end
    of them; when the term is one primary the result is the operator
    applied to the accumulator and that primary. *)
Lemma parse_ops_then_term n o acc ts f :
  parse_term reg n ts = Some (f, []) →
  ∃ f', parse_ops reg n acc (op_token o :: ts) = Some (f', [])
        ∧ (primary_tokens reg ts → f' = op_filter o acc f).
Proof.
  destruct n as [|n]; [done|]. intros H. simpl in H.
  destruct (parse_primary reg n ts) as [[g r]|] eqn:Hp; [|done]. simpl in H.
  destruct (parse_ops_any_acc n g (op_filter o acc g) r f [] H) as [f' Hf'].
  exists f'. rewrite parse_ops_op, Hp. simpl. split; [done|].
  intros (k & g0 & Hk).
  pose proof (parse_primary_mono k (k + n) _ _ Hk ltac:(lia)) as H1.
  pose proof (parse_primary_mono n (k + n) _ _ Hp ltac:(lia)) as H2.
  rewrite H1 in H2. injection H2 as <- <-.
  destruct n as [|n]; [done|].
  rewrite parse_ops_stop in H, Hf' by done.
  injection H as ->. by injection Hf' as <-.
Qed.

Lemma parse_term_unfold n ts :
  parse_term reg (S n) ts
  = '(g, r) ← parse_primary reg n ts; parse_ops reg n g r.
Proof. done. Qed.

Lemma parse_primary_paren n ts f r :
  parse_term reg n ts = Some (f, TRParen :: r) →
  parse_primary reg (S n) (TLParen :: ts) = Some (f, r).
Proof. intros H. simpl. by rewrite H. Qed.

(** The token-level core of the left-to-right fold: for the tokens [a],
    [b], [c] of three terms, [a o1 b o2 c] and [( a o1 b ) o2 c] parse, with
    the fuel of the compiler, to the same filter. *)
Lemma parse_left_to_right o1 o2 a b c fA fB fC :
  parse_term reg (fuel_for a) a = Some (fA, []) →
  parse_term reg (fuel_for b) b = Some (fB, []) →
  parse_term reg (fuel_for c) c = Some (fC, []) →
  let flat := a ++ op_token o1 :: b ++ op_token o2 :: c in
  let grouped := TLParen :: (a ++ op_token o1 :: b) ++ TRParen :: op_token o2 :: c in
  ∃ f, parse_term reg (fuel_for flat) flat = Some (f, [])
       ∧ parse_term reg (fuel_for grouped) grouped = Some (f, [])
       ∧ (primary_tokens reg b → primary_tokens reg c →
          f = op_filter o2 (op_filter o1 fA fB) fC).
Proof.
  intros HA HB HC flat grouped.
  destruct (parse_ops_then_term _ o1 fA _ _ HB) as (fI & HopB & HshapeB).
  destruct (parse_ops_then_term _ o2 fI _ _ HC) as (f & HopC & HshapeC).
  pose proof (parse_term_continue _ _ _ _ _ _ HA HopB) as Hinner.
  exists f. split; [|split].
  - pose proof (parse_term_continue _ _ _ _ _ _ Hinner HopC) as Hflat.
    rewrite <- app_assoc in Hflat. simpl in Hflat.
    apply (parse_term_mono _ _ _ _ Hflat).
    unfold flat, fuel_for. rewrite !length_app. simpl. rewrite !length_app. simpl.
    lia.
  - set (inner := a ++ op_token o1 :: b) in *.
    assert (fuel_for grouped
            = S (S (fuel_for a + fuel_for b + fuel_for c + 2)))%nat as ->.
    { unfold grouped, fuel_for. simpl. rewrite !length_app. simpl.
      unfold inner. rewrite !length_app. simpl. lia. }
    set (N := (fuel_for a + fuel_for b + fuel_for c + 2)%nat).
    assert (parse_primary reg (S N) grouped = Some (fI, op_token o2 :: c)) as Hprim.
    { apply parse_primary_paren.
      apply (parse_term_mono (fuel_for a + fuel_for b) N); [|lia].
      exact (parse_term_frame _ _ _ _ (TRParen :: op_token o2 :: c) Hinner I). }
    rewrite parse_term_unfold, Hprim.
    apply (parse_ops_mono _ _ _ _ _ HopC). lia.
  - intros Hb Hc. rewrite (HshapeC Hc). by rewrite (HshapeB Hb).
Qed.

End ParserFacts.

(** ** The CQL compiler *)
Section CompileFacts.
Import cql.
Context {ComponentType : Type} (reg : string → option ComponentType).
Implicit Types (f : filter.LayoutFilter ComponentType).

Lemma Parse_Some (text : string) f :
  Parse reg text = Some f
  ↔ parse_term reg (fuel_for (lex text)) (lex text) = Some (f, []).
Proof.
  unfold Parse.
  destruct (parse_term reg (fuel_for (lex text)) (lex text)) as [[g [|t r]]|];
    split; intros H; try done; congruence.
Qed.

(** C3. For subqueries [A], [B] and [C], that is texts that compile, the
    text [A & B | C] compiles to the same filter tree as [(A & B) | C], and
    [A | B & C] to the same as [(A | B) & C]; when [B] and [C] are
    primaries, these trees are [Or (And a b) c] and [And (Or a b) c] over
    the trees of the subqueries. *)
Theorem Parse_left_to_right (A B C : string) fA fB fC
    (HA : Parse reg A = Some fA)
    (HB : Parse reg B = Some fB)
    (HC : Parse reg C = Some fC) :
  (∃ f, Parse reg (A +:+ " & " +:+ B +:+ " | " +:+ C) = Some f
        ∧ Parse reg ("(" +:+ (A +:+ " & " +:+ B) +:+ ") | " +:+ C) = Some f
        ∧ (primary_text reg B → primary_text reg C →
           f = filter.Or (filter.And fA fB) fC))
  ∧ (∃ f, Parse reg (A +:+ " | " +:+ B +:+ " & " +:+ C) = Some f
          ∧ Parse reg ("(" +:+ (A +:+ " | " +:+ B) +:+ ") & " +:+ C) = Some f
          ∧ (primary_text reg B → primary_text reg C →
             f = filter.And (filter.Or fA fB) fC)).
Proof.
  apply Parse_Some in HA, HB, HC. split.
  - destruct (parse_left_to_right reg OpAnd OpOr _ _ _ _ _ _ HA HB HC)
      as (f & Hflat & Hgrouped & Hshape).
    exists f. split; [|split].
    + apply Parse_Some. by rewrite lex_and, lex_or.
    + apply Parse_Some. by rewrite lex_paren_or, lex_and.
    + exact Hshape.
  - destruct (parse_left_to_right reg OpOr OpAnd _ _ _ _ _ _ HA HB HC)
      as (f & Hflat & Hgrouped & Hshape).
    exists f. split; [|split].
    + apply Parse_Some. by rewrite lex_or, lex_and.
    + apply Parse_Some. by rewrite lex_paren_and, lex_or.
    + exact Hshape.
Qed.

End CompileFacts.

(** C3, at three concrete subqueries over the components Health, Attack and
    Leg. *)
Lemma Parse_left_to_right_witness :
  let reg := λ name : string,
    if String.eqb name "Health" then Some 1%nat
    else if String.eqb name "Attack" then Some 2%nat
    else if String.eqb name "Leg" then Some 3%nat
    else None in
  cql.Parse reg "EXACT(Health)" = Some (filter.Exact [1%nat])
  ∧ cql.Parse reg "CONTAINS(Attack)" = Some (filter.Contains [2%nat])
  ∧ cql.Parse reg "!EXACT(Leg)" = Some (filter.Not (filter.Exact [3%nat]))
  ∧ ∃ f, cql.Parse reg "EXACT(Health) & CONTAINS(Attack) | !EXACT(Leg)" = Some f
         ∧ cql.Parse reg "(EXACT(Health) & CONTAINS(Attack)) | !EXACT(Leg)" = Some f.
Proof.
  intros reg.
  split; [reflexivity|]. split; [reflexivity|]. split; [reflexivity|].
  destruct (Parse_left_to_right reg "EXACT(Health)" "CONTAINS(Attack)" "!EXACT(Leg)"
              _ _ _ eq_refl eq_refl eq_refl) as [(f & H1 & H2 & _) _].
  exists f. split; [exact H1 | exact H2].
Defined.


Section IteratorTests.
Import iterator iterator_test iterator_examples.

(** [TestIteratorReturnsErrorWhenQueryNotFound] *)
Example TestIteratorReturnsErrorWhenQueryNotFound :
  let pages := [ {| Epochs := [mkEpoch 1 1 [mkTxData 1 []]]; NextKey := None |} ] in
  (λ r, Error_text <$> match outcome r with Err e => Some e | _ => None end)
    <$> run_each (New lookup_none "") NoRange (scripted pages)
  = Some (Some "queried message with ID 1, but it does not exist in Cardinal").
Proof. reflexivity. Qed.

(** [TestIteratorReturnsErrorIfQueryFails] *)
Example TestIteratorReturnsErrorIfQueryFails :
  outcome <$> run_each (New lookup_none "foo") NoRange
                (mkMock 0 (Some "some error") [] None)
  = Some (Err (ErrQuery "some error")).
Proof. reflexivity. Qed.

(** [TestIteratorHappyPath] *)
Example TestIteratorHappyPath :
  let pages := [ {| Epochs := [mkEpoch 12 15 [mkTxData 10 [3]]]; NextKey := None |} ] in
  (λ r, (calls r, outcome r)) <$> run_each (New lookup_foo "ns") NoRange (scripted pages)
  = Some ([([mkTxBatch [3] 10 3], 12, 15)], Nil).
Proof. reflexivity. Qed.

(** [TestIteratorStartRange] *)
Example TestIteratorStartRange :
  (λ r, req ← request (feed_state r); key ← PageKey req; parsePageKey key)
    <$> run_each (New lookup_none "") (From 5) (mkMock 0 (Some "whatever") [] None)
  = Some (Some 5).
Proof. reflexivity. Qed.

(** [TestIteratorStopRange] *)
Example TestIteratorStopRange :
  (λ r, (callback_state r, outcome r))
    <$> run_each (New lookup_foo "ns") (FromTo 0 15) (scripted stop_range_pages)
  = Some (1%nat, Nil).
Proof. reflexivity. Qed.

(** [TestStartGreaterThanStopRange] *)
Example TestStartGreaterThanStopRange :
  (λ r, (requests r, Error_text <$> match outcome r with Err e => Some e | _ => None end))
    <$> run_each (New lookup_none "") (FromTo 154 0) (scripted [])
  = Some ([], Some "first number in range must be less than the second (start,stop)").
Proof. reflexivity. Qed.

End IteratorTests.

(** ** The shard iterator: decoding and the walk over a page *)
Section IteratorFacts.
Import iterator.
Context {Tx MsgValue St Q : Type}.
Context (unmarshal : list Z → option Tx) (Body : Tx → list Z).
Implicit Types (it : Iterator MsgValue Q) (fn : St → Call Tx MsgValue → St * option string)
               (s : St) (q : Q) (e : Epoch) (stop : option Z).

(** C8. With both ticks supplied and [startTick >= stopTick], [Each] returns
    the usage error at once: for every bound on the pages, every feed and
    every callback, no request is sent to the feed, the callback is not
    invoked, and the states of the callback and of the feed are as before. *)
Theorem Each_range_error it fuel fn (start stop : Z) s q (Hrange : start >= stop) :
  Each unmarshal Body it fuel fn (FromTo start stop) s q
  = Some {| calls := []; requests := []; callback_state := s; feed_state := q;
            outcome := Err ErrRange |}
  ∧ Error_text ErrRange
    = "first number in range must be less than the second (start,stop)".
Proof.
  split; [|done]. unfold Each. by rewrite bool_decide_eq_true_2.
Qed.

(** The first transaction that names an unknown message fails the batch, with
    the error that names its id. *)
Lemma decode_batch_unknown it (pre post : list TxData) tx bs :
  decode_batch unmarshal Body it pre = inr bs →
  getMessageByID it (TxId tx) = None →
  decode_batch unmarshal Body it (pre ++ tx :: post) = inl (ErrUnknownMessage (TxId tx)).
Proof.
  revert bs. induction pre as [|t pre IH]; intros bs Hpre Hunknown; simpl.
  - unfold decode_tx. by rewrite Hunknown.
  - simpl in Hpre. destruct (decode_tx unmarshal Body it t) as [err|b]; [done|].
    destruct (decode_batch unmarshal Body it pre) as [err|bs'] eqn:Hd; [done|].
    by rewrite (IH bs').
Qed.

(** A decoded batch has one entry per transaction, in order, under the id of
    the transaction: nothing is skipped. *)
Lemma decode_batch_ids it (txs : list TxData) bs :
  decode_batch unmarshal Body it txs = inr bs → MsgID <$> bs = TxId <$> txs.
Proof.
  revert bs. induction txs as [|t txs IH]; intros bs H; simpl in H.
  - by injection H as <-.
  - destruct (decode_tx unmarshal Body it t) as [err|b] eqn:Ht; [done|].
    destruct (decode_batch unmarshal Body it txs) as [err|bs'] eqn:Hd; [done|].
    injection H as <-. rewrite !fmap_cons, (IH bs') by done. f_equal.
    unfold decode_tx in Ht.
    destruct (getMessageByID it (TxId t)); [|done].
    destruct (unmarshal (GameShardTransaction t)); [|done].
    destruct (Decode _ _); [|done]. by injection Ht as <-.
Qed.

(** The walk over [pre ++ rest] is the walk over [pre] and, when that one
    reaches the end, the walk over [rest] from the state it left. *)
Lemma each_epochs_app it fn stop (pre rest : list Epoch) s :
  each_epochs unmarshal Body it fn stop (pre ++ rest) s
  = match each_epochs unmarshal Body it fn stop pre s with
    | (s1, cs1, EndOfPage) =>
        let '(s2, cs2, pe) := each_epochs unmarshal Body it fn stop rest s1 in
        (s2, cs1 ++ cs2, pe)
    | other => other
    end.
Proof.
  revert s. induction pre as [|e pre IH]; intros s; simpl.
  - by destruct (each_epochs unmarshal Body it fn stop rest s) as [[s2 cs2] pe].
  - destruct (beyond_stop stop e); [done|].
    destruct (decode_batch unmarshal Body it (Txs e)) as [err|batch]; [done|].
    destruct (fn s _) as [s' [cause|]]; [done|].
    rewrite IH.
    destruct (each_epochs unmarshal Body it fn stop pre s') as [[s1 cs1] [| |err]];
      try done.
    by destruct (each_epochs unmarshal Body it fn stop rest s1) as [[s2 cs2] pe].
Qed.

(** An epoch within the stop bound with a transaction of an unknown message,
    reached after the epochs [pre]: the walk fails there, with the calls of
    [pre] only. *)
Lemma each_epochs_unknown it fn stop (pre post : list Epoch) e
    (tpre tpost : list TxData) tx bs s s1 cs1 :
  each_epochs unmarshal Body it fn stop pre s = (s1, cs1, EndOfPage) →
  beyond_stop stop e = false →
  Txs e = tpre ++ tx :: tpost →
  decode_batch unmarshal Body it tpre = inr bs →
  getMessageByID it (TxId tx) = None →
  each_epochs unmarshal Body it fn stop (pre ++ e :: post) s
  = (s1, cs1, Failed (ErrUnknownMessage (TxId tx))).
Proof.
  intros Hpre Hstop Htxs Hdec Hunknown.
  rewrite each_epochs_app, Hpre. simpl. rewrite Hstop, Htxs.
  rewrite (decode_batch_unknown it tpre tpost tx bs Hdec Hunknown).
  by rewrite app_nil_r.
Qed.

End IteratorFacts.

(** ** The shard iterator on a scripted feed *)
Section ScriptedFeed.
Import iterator iterator_test.
Context {Tx MsgValue St : Type}.
Context (unmarshal : list Z → option Tx) (Body : Tx → list Z).
Context (lookup : Z → option (Message MsgValue)) (ns : string).
Implicit Types (fn : St → Call Tx MsgValue → St * option string) (s : St)
               (m : mockQuerier) (pages : list QueryTransactionsResponse)
               (stop key : option (list Z)).

Lemma drop_cons_inv {A : Type} (l : list A) (n : nat) x rest :
  drop n l = x :: rest → l !! n = Some x ∧ drop (S n) l = rest.
Proof.
  intros H. split.
  - rewrite <- (Nat.add_0_r n), <- lookup_drop. by rewrite H.
  - replace (S n) with (n + 1)%nat by lia.
    rewrite <- drop_drop. by rewrite H.
Qed.

(** On a scripted feed the pages are walked as one list of epochs: the
    calls, the final state and the outcome are those of the walk over the
    served epochs, and the keys of the requests are the key to start with and
    then the continuation keys of the pages, in order. *)
Lemma each_pages_scripted fn (stop : option Z) pages :
  ∀ m key s (fuel : nat),
    retErr m = None → drop (i m) (ret m) = pages → (length pages < fuel)%nat →
    ∃ run,
      each_pages unmarshal Body (scripted_iterator lookup ns) fn stop fuel m key s = Some run
      ∧ (callback_state run, calls run,
         outcome run)
        = (let '(s', cs, pe) :=
             each_epochs unmarshal Body (scripted_iterator lookup ns) fn stop (served pages) s in
           (s', cs, outcome_of pages pe))
      ∧ ∃ n : nat, (1 <= n)%nat
          ∧ requests run = mkRequest ns <$> take n (key :: (NextKey <$> pages)).
Proof.
  induction pages as [|p rest IH]; intros m key s fuel Herr Hdrop Hfuel.
  - destruct fuel as [|fuel]; [simpl in Hfuel; lia|]. simpl.
    unfold QueryTransactions. rewrite Herr.
    assert (ret m !! i m = None) as ->.
    { apply lookup_ge_None. apply (f_equal length) in Hdrop.
      rewrite length_drop in Hdrop. simpl in Hdrop. lia. }
    simpl. eexists. split; [reflexivity|]. split; [done|].
    exists 1%nat. split; [lia | done].
  - destruct fuel as [|fuel]; [simpl in Hfuel; lia|].
    apply drop_cons_inv in Hdrop as [Hp Hrest].
    cbn [each_pages scripted_iterator iterator.QueryTransactions iterator.namespace].
    unfold QueryTransactions at 1. rewrite Herr, Hp. cbn [mbind option_bind].
    cbn [served]. rewrite each_epochs_app.
    destruct (each_epochs unmarshal Body (scripted_iterator lookup ns) fn stop (Epochs p) s)
      as [[s1 cs1] [| |err]] eqn:Hwalk.
    + destruct (NextKey p) as [next|] eqn:Hnext.
      * set (m' := {| i := S (i m); retErr := None; ret := ret m;
                      request := Some (mkRequest ns key) |}).
        destruct (IH m' (Some next) s1 fuel eq_refl Hrest ltac:(simpl in Hfuel; lia))
          as (run & Hrun & Hflat & n & Hn & Hreq).
        fold (scripted_iterator lookup ns). rewrite Hrun. cbn [fmap option_fmap option_map].
        eexists. split; [reflexivity|]. split.
        -- cbn [after_page callback_state calls outcome].
           destruct (each_epochs unmarshal Body (scripted_iterator lookup ns) fn stop (served rest) s1)
             as [[s2 cs2] pe].
           injection Hflat as -> -> ->.
           destruct pe; cbn [outcome_of feed_ends]; rewrite ?Hnext; done.
        -- exists (S n). split; [lia|].
           cbn [after_page requests]. rewrite Hreq. rewrite fmap_cons, Hnext. done.
      * eexists. split; [reflexivity|]. split.
        -- cbn. rewrite Hnext. by rewrite app_nil_r.
        -- exists 1%nat. split; [lia | done].
    + eexists. split; [reflexivity|]. split; [done|].
      exists 1%nat. split; [lia | done].
    + eexists. split; [reflexivity|]. split; [done|].
      exists 1%nat. split; [lia | done].
Qed.

End ScriptedFeed.

(** ** The contract of Each *)
Section EachContract.
Import iterator iterator_test.
Context {Tx MsgValue St : Type}.
Context (unmarshal : list Z → option Tx) (Body : Tx → list Z).
Context (lookup : Z → option (Message MsgValue)) (ns : string).
Implicit Types (fn : St → Call Tx MsgValue → St * option string) (s : St)
               (pages : list QueryTransactionsResponse) (ranges : Ranges).

#[local] Abbreviation it := (scripted_iterator lookup ns).

(** [Each] on a scripted feed, once the ticks are accepted. *)
Lemma Each_scripted fn ranges pages s (fuel : nat) :
  range_ok ranges → (length pages < fuel)%nat →
  ∃ run,
    Each unmarshal Body it fuel fn ranges s (scripted pages) = Some run
    ∧ (callback_state run, calls run, outcome run)
      = (let '(s', cs, pe) :=
           each_epochs unmarshal Body it fn (range_stop ranges) (served pages) s in
         (s', cs, outcome_of pages pe))
    ∧ ∃ n : nat, (1 <= n)%nat
        ∧ requests run
          = mkRequest ns
              <$> take n (Some (tick_key (range_start ranges)) :: (NextKey <$> pages)).
Proof.
  intros Hok Hfuel.
  destruct ranges as [|start|start stop]; simpl in *.
  - by apply each_pages_scripted.
  - by apply each_pages_scripted.
  - rewrite bool_decide_eq_false_2 by lia. by apply each_pages_scripted.
Qed.

(** C7. In a run of [Each] that gets to an epoch, within the stop bound, with
    a transaction whose MessageID the Message Registry does not know (the
    transactions before it in the epoch decode), [Each] returns the error
    "queried message with ID <id>, but it does not exist in Cardinal" that
    names this id; the callback is invoked for the epochs before only, not for
    this epoch or a later one.  And a batch that is delivered has one entry
    per transaction of its epoch: no transaction is dropped. *)
Theorem Each_unknown_message fn ranges pages s (fuel : nat)
    (pre post : list Epoch) (e : Epoch) (tpre tpost : list TxData) (tx : TxData)
    bs s1 cs1
    (Hok : range_ok ranges)
    (Hfuel : (length pages < fuel)%nat)
    (Hserved : served pages = pre ++ e :: post)
    (Hpre : each_epochs unmarshal Body it fn (range_stop ranges) pre s
            = (s1, cs1, EndOfPage))
    (Hstop : beyond_stop (range_stop ranges) e = false)
    (Htxs : Txs e = tpre ++ tx :: tpost)
    (Hdec : decode_batch unmarshal Body it tpre = inr bs)
    (Hunknown : lookup (TxId tx) = None) :
  (∃ run,
      Each unmarshal Body it fuel fn ranges s (scripted pages) = Some run
      ∧ outcome run = Err (ErrUnknownMessage (TxId tx))
      ∧ calls run = cs1
      ∧ callback_state run = s1)
  ∧ Error_text (ErrUnknownMessage (TxId tx))
    = "queried message with ID " +:+ pretty (TxId tx)
      +:+ ", but it does not exist in Cardinal"
  ∧ ∀ e' batch, decode_batch unmarshal Body it (Txs e') = inr batch →
      MsgID <$> batch = TxId <$> Txs e'.
Proof.
  split; [|split; [done | intros e' batch; apply decode_batch_ids]].
  destruct (Each_scripted fn ranges pages s fuel Hok Hfuel) as (run & Hrun & Hflat & _).
  exists run. split; [done|].
  rewrite Hserved in Hflat.
  rewrite (each_epochs_unknown unmarshal Body it fn (range_stop ranges) pre post e
             tpre tpost tx bs s s1 cs1 Hpre Hstop Htxs Hdec Hunknown) in Hflat.
  simpl in Hflat. by injection Hflat as -> -> ->.
Qed.

(** The walk over epochs that all decode, with a callback that returns no
    error. *)
Lemma each_epochs_delivers fn (stop : option Z) (epochs : list Epoch) s :
  (∀ e, e ∈ epochs → is_Some (call_of unmarshal Body lookup ns e)) →
  (∀ s c, (fn s c).2 = None) →
  ∃ cs pe,
    each_epochs unmarshal Body it fn stop epochs s
    = (foldl (λ s c, (fn s c).1) s cs, cs, pe)
    ∧ Some <$> cs = call_of unmarshal Body lookup ns <$> up_to_stop stop epochs
    ∧ (pe = EndOfPage ∨ pe = StopReached).
Proof.
  intros Hdec Hfn. revert s.
  induction epochs as [|e rest IH]; intros s; simpl.
  - exists [], EndOfPage. split; [done|]. split; [done|]. by left.
  - destruct (beyond_stop stop e).
    { exists [], StopReached. split; [done|]. split; [done|]. by right. }
    assert (is_Some (call_of unmarshal Body lookup ns e)) as [c Hc] by (apply Hdec; by left).
    unfold call_of in Hc.
    destruct (decode_batch unmarshal Body it (Txs e)) as [err|batch] eqn:Hd; [done|].
    injection Hc as <-.
    specialize (Hfn s (batch, Epoch_number e, UnixTimestamp e)) as Hnil.
    destruct (fn s (batch, Epoch_number e, UnixTimestamp e)) as [s' r] eqn:Hcall.
    simpl in Hnil. subst r.
    destruct (IH ltac:(intros e' He'; apply Hdec; by right) s')
      as (cs & pe & Hwalk & Hcs & Hpe).
    rewrite Hwalk. exists ((batch, Epoch_number e, UnixTimestamp e) :: cs), pe.
    split; [|split; [|done]].
    + simpl. by rewrite Hcall.
    + rewrite !fmap_cons, Hcs. f_equal. unfold call_of. by rewrite Hd.
Qed.

End EachContract.

(** ** The page key of a start tick *)
Section Keys.
Import iterator iterator_test.

Lemma byte_step (t k : Z) :
  0 <= t → 0 <= k → t / 2 ^ k = 256 * (t / 2 ^ (k + 8)) + (t / 2 ^ k) mod 256.
Proof.
  intros Ht Hk. rewrite Z.pow_add_r by lia. rewrite <- Z.div_div by lia.
  change (2 ^ 8) with 256. apply Z.div_mod. lia.
Qed.

(** The key of a [uint64] tick reads back as the tick. *)
Lemma parsePageKey_tick_key (tick : Z) :
  0 <= tick < 2 ^ 64 → parsePageKey (tick_key tick) = Some tick.
Proof.
  intros [Hlo Hhi]. unfold tick_key, parsePageKey.
  cbn [fmap list_fmap foldl]. f_equal.
  change (8 * (7 - 0)) with 56. change (8 * (7 - 1)) with 48.
  change (8 * (7 - 2)) with 40. change (8 * (7 - 3)) with 32.
  change (8 * (7 - 4)) with 24. change (8 * (7 - 5)) with 16.
  change (8 * (7 - 6)) with 8. change (8 * (7 - 7)) with 0.
  pose proof (byte_step tick 0 Hlo ltac:(lia)) as H0.
  pose proof (byte_step tick 8 Hlo ltac:(lia)) as H1.
  pose proof (byte_step tick 16 Hlo ltac:(lia)) as H2.
  pose proof (byte_step tick 24 Hlo ltac:(lia)) as H3.
  pose proof (byte_step tick 32 Hlo ltac:(lia)) as H4.
  pose proof (byte_step tick 40 Hlo ltac:(lia)) as H5.
  pose proof (byte_step tick 48 Hlo ltac:(lia)) as H6.
  pose proof (byte_step tick 56 Hlo ltac:(lia)) as H7.
  change (0 + 8) with 8 in *. change (8 + 8) with 16 in *.
  change (16 + 8) with 24 in *. change (24 + 8) with 32 in *.
  change (32 + 8) with 40 in *. change (40 + 8) with 48 in *.
  change (48 + 8) with 56 in *. change (56 + 8) with 64 in *.
  assert (tick / 2 ^ 64 = 0) as H8 by (apply Z.div_small; lia).
  rewrite H8 in H7. change (2 ^ 0) with 1 in *. rewrite Z.div_1_r in *.
  lia.
Qed.

End Keys.

(** ** What Each delivers *)
Section EachDelivery.
Import iterator iterator_test.
Context {Tx MsgValue St : Type}.
Context (unmarshal : list Z → option Tx) (Body : Tx → list Z).
Context (lookup : Z → option (Message MsgValue)) (ns : string).
Implicit Types (fn : St → Call Tx MsgValue → St * option string) (s : St)
               (pages : list QueryTransactionsResponse) (ranges : Ranges).

Lemma up_to_stop_None (epochs : list Epoch) : up_to_stop None epochs = epochs.
Proof. induction epochs as [|e rest IH]; simpl; [done | by rewrite IH]. Qed.

(** No epoch beyond the stop bound is delivered, and the delivered epochs
    are a prefix of the served ones. *)
Lemma up_to_stop_prefix (stop : option Z) (epochs : list Epoch) :
  up_to_stop stop epochs `prefix_of` epochs
  ∧ Forall (λ e, beyond_stop stop e = false) (up_to_stop stop epochs).
Proof.
  induction epochs as [|e rest [IHp IHf]]; simpl.
  - split; [done | constructor].
  - destruct (beyond_stop stop e) eqn:He.
    + split; [apply prefix_nil | constructor].
    + split; [by apply prefix_cons | by constructor].
Qed.

(** C9, as amended.  On a feed that ends, whose epochs all decode, and with
    a callback that returns no error, [Each(callback, startTick, stopTick)]
    returns without error after invoking the callback exactly once, in feed
    order, with the decoded batch, the number and the timestamp of every
    epoch before the first epoch whose number is beyond [stopTick]; that
    epoch and the epochs after it get no call.  Without [stopTick] every
    epoch the feed serves gets its call.  The first request carries the key
    of [startTick] (0 by default), which reads back as that tick, and each
    further request the continuation key of the response before it. *)
Theorem Each_delivers_up_to_stop fn ranges pages s (fuel : nat)
    (Hok : range_ok ranges)
    (Hfuel : (length pages < fuel)%nat)
    (Hends : feed_ends pages = true)
    (Hdec : ∀ e, e ∈ served pages → is_Some (call_of unmarshal Body lookup ns e))
    (Hfn : ∀ s c, (fn s c).2 = None)
    (Hstart : 0 <= range_start ranges < 2 ^ 64) :
  ∃ run,
    Each unmarshal Body (scripted_iterator lookup ns) fuel fn ranges s (scripted pages)
    = Some run
    ∧ outcome run = Nil
    ∧ Some <$> calls run
      = call_of unmarshal Body lookup ns
          <$> up_to_stop (range_stop ranges) (served pages)
    ∧ callback_state run = foldl (λ s c, (fn s c).1) s (calls run)
    ∧ (range_stop ranges = None →
       Some <$> calls run = call_of unmarshal Body lookup ns <$> served pages)
    ∧ (∃ n : nat, (1 <= n)%nat
         ∧ requests run
           = mkRequest ns
               <$> take n (Some (tick_key (range_start ranges)) :: (NextKey <$> pages)))
    ∧ parsePageKey (tick_key (range_start ranges)) = Some (range_start ranges).
Proof.
  destruct (Each_scripted unmarshal Body lookup ns fn ranges pages s fuel Hok Hfuel)
    as (run & Hrun & Hflat & Hreq).
  destruct (each_epochs_delivers unmarshal Body lookup ns fn (range_stop ranges)
              (served pages) s Hdec Hfn) as (cs & pe & Hwalk & Hcs & Hpe).
  rewrite Hwalk in Hflat. injection Hflat as Hs Hc Ho.
  exists run. split; [done|]. split.
  { rewrite Ho. destruct Hpe as [-> | ->]; simpl; [by rewrite Hends | done]. }
  split; [by rewrite Hc|]. split; [by rewrite Hs, Hc|]. split.
  { intros Hnone. rewrite Hc, Hcs, Hnone. by rewrite up_to_stop_None. }
  split; [done|]. by apply parsePageKey_tick_key.
Qed.

End EachDelivery.

(** ** The contract of Each at the inputs of the tests *)
Section EachAtTests.
Import iterator iterator_test iterator_examples.

(** C9, as stated, fails at the input of [TestIteratorStopRange]: of the
    epochs 12 and 20 with [stopTick = 15], epoch 20 is the first at or beyond
    the bound and would be delivered before the stop; the callback is invoked
    for epoch 12 only, which is what the test expects ([called == 1]). *)
Lemma Each_stop_counterexample :
  called_epochs <$> run_each (New lookup_foo "ns") (FromTo 0 15) (scripted stop_range_pages)
  = Some [12]
  ∧ Epoch_number <$> through_stop 15 (served stop_range_pages) = [12; 20]
  ∧ [12] ≠ [12; 20].
Proof.
  split; [reflexivity|]. split; [reflexivity | discriminate].
Qed.

(** C7, at the input of [TestIteratorReturnsErrorWhenQueryNotFound]. *)
Lemma Each_unknown_message_witness :
  let e := mkEpoch 1 1 [mkTxData 1 []] in
  let pages := [ {| Epochs := [e]; NextKey := None |} ] in
  served pages = [] ++ e :: []
  ∧ Txs e = [] ++ mkTxData 1 [] :: []
  ∧ lookup_none 1 = None
  ∧ ∃ run, run_each (New lookup_none "") NoRange (scripted pages) = Some run
           ∧ outcome run = Err (ErrUnknownMessage 1)
           ∧ calls run = [].
Proof.
  intros e pages.
  split; [reflexivity|]. split; [reflexivity|]. split; [reflexivity|].
  destruct (Each_unknown_message Some id lookup_none "" count_calls NoRange pages
              0%nat 8 [] [] e [] [] (mkTxData 1 []) [] 0%nat []
              I ltac:(simpl; lia) eq_refl eq_refl eq_refl eq_refl eq_refl eq_refl)
    as [(run & Hrun & Hout & Hcalls & _) _].
  exists run. split; [exact Hrun|]. split; [exact Hout | exact Hcalls].
Defined.

(** C8, at the input of [TestStartGreaterThanStopRange]. *)
Lemma Each_range_error_witness :
  154 >= 0
  ∧ run_each (New lookup_none "") (FromTo 154 0) (scripted [])
    = Some {| calls := []; requests := []; callback_state := 0%nat;
              feed_state := scripted []; outcome := Err ErrRange |}.
Proof.
  split; [lia|].
  exact (proj1 (Each_range_error Some id (New lookup_none "") 8 count_calls 154 0
                  0%nat (scripted []) ltac:(lia))).
Defined.

(** C9, at the input of [TestIteratorStopRange]. *)
Lemma Each_delivers_up_to_stop_witness :
  range_ok (FromTo 0 15)
  ∧ feed_ends stop_range_pages = true
  ∧ ∃ run, run_each (New lookup_foo "ns") (FromTo 0 15) (scripted stop_range_pages)
           = Some run
           ∧ outcome run = Nil.
Proof.
  split; [simpl; lia|]. split; [reflexivity|].
  assert (∀ e, e ∈ served stop_range_pages → is_Some (call_of Some id lookup_foo "ns" e))
    as Hdec.
  { apply Forall_forall. apply (bool_decide_unpack _). vm_compute. exact I. }
  destruct (Each_delivers_up_to_stop Some id lookup_foo "ns" count_calls (FromTo 0 15)
              stop_range_pages 0%nat 8 ltac:(simpl; lia) ltac:(simpl; lia) eq_refl
              Hdec ltac:(intros; reflexivity) ltac:(simpl; lia))
    as (run & Hrun & Hout & _).
  exists run. split; [exact Hrun | exact Hout].
Defined.

End EachAtTests.

(* ================================================================== *)
(** * Part IV: further properties of the code                          *)
(* ================================================================== *)

(** ** The entity list of an archetype *)
Section ArchetypeMore.
Import golang storage.
Context {Entity ComponentType : Type} `{!EqDecision ComponentType}.
Implicit Types (archetype : Archetype Entity ComponentType) (e : Entity).

Lemma at_index_None {A : Type} (s : list A) (i : Z) :
  at_index s i = None ↔ i < 0 ∨ Z.of_nat (length s) <= i.
Proof.
  unfold at_index. case_decide as Hi.
  - rewrite lookup_ge_None. lia.
  - split; [lia | done].
Qed.

(** X1. [SwapRemove] panics exactly when the slot is outside the entity
    list: below zero, or at or beyond [Count()]; in particular on every slot
    of an empty archetype. *)
Theorem SwapRemove_panics_iff archetype (i : Z) :
  SwapRemove archetype i = None
  ↔ i < 0 ∨ Z.of_nat (Archetype_Count archetype) <= i.
Proof.
  unfold SwapRemove, Archetype_Count.
  destruct (at_index (entities archetype) i) as [removed|] eqn:Hrem; simpl.
  - pose proof (at_index_lt _ _ _ Hrem) as Hi.
    destruct (at_index_in_range (entities archetype)
                (Z.of_nat (length (entities archetype)) - 1)) as [last ->]; [lia|].
    simpl. split; [done | lia].
  - by apply at_index_None in Hrem.
Qed.

(** X2. Removing the slot an entity was just pushed to gives the entity back
    and the archetype as it was before the push. *)
Theorem PushEntity_SwapRemove_last archetype e :
  SwapRemove (PushEntity archetype e) (Z.of_nat (Archetype_Count archetype))
  = Some (e, archetype).
Proof.
  destruct archetype as [idx es l]. unfold SwapRemove, PushEntity, Archetype_Count.
  simpl. rewrite at_index_of_nat, lookup_app_r by lia.
  rewrite Nat.sub_diag. simpl.
  replace (Z.of_nat (length (es ++ [e])) - 1) with (Z.of_nat (length es))
    by (rewrite length_app; simpl; lia).
  rewrite at_index_of_nat, lookup_app_r by lia.
  rewrite Nat.sub_diag. simpl. do 3 f_equal.
  unfold slice_to, set_index. rewrite Nat2Z.id, length_insert, length_app. simpl.
  replace (length es + 1 - 1)%nat with (length es) by lia.
  rewrite insert_app_r_alt by lia. rewrite Nat.sub_diag. simpl.
  by rewrite take_app_length.
Qed.

(** The list left by a swap-with-last at slot [i] has the elements of the
    list without slot [i]. *)
Lemma swap_with_last_perm {A : Type} (l : list A) (i : nat) (z : A) :
  (i < length l)%nat → last l = Some z →
  take (length l - 1) (<[i := z]> l) ≡ₚ delete i l.
Proof.
  intros Hi Hlast.
  destruct l as [|x l0] using rev_ind; [done|]. clear IHl0.
  rewrite last_snoc in Hlast. injection Hlast as ->.
  rewrite length_app in *. simpl in *.
  replace (length l0 + 1 - 1)%nat with (length l0) by lia.
  destruct (decide (i = length l0)) as [->|Hne].
  - rewrite insert_app_r_alt by lia. rewrite Nat.sub_diag. simpl.
    rewrite take_app_length.
    rewrite delete_middle. by rewrite app_nil_r.
  - assert (i < length l0)%nat as Hlt by lia.
    rewrite insert_app_l by done.
    rewrite take_app_le by (rewrite length_insert; lia).
    rewrite take_ge by (rewrite length_insert; lia).
    destruct (lookup_lt_is_Some_2 l0 i Hlt) as [y Hy].
    rewrite insert_take_drop by done.
    rewrite delete_take_drop.
    rewrite take_app_le by lia. rewrite drop_app_le by lia.
    apply Permutation_app_head. apply Permutation_cons_append.
Qed.

(** X3. A successful [SwapRemove] removes one occurrence of the returned
    entity and nothing else: the old entity list is a permutation of the
    returned entity and the new list.  So an archetype without repeated
    entities stays so, and the removed entity is no longer in it. *)
Theorem SwapRemove_Permutation archetype (i : Z) removed archetype'
    (Hrun : SwapRemove archetype i = Some (removed, archetype')) :
  entities archetype ≡ₚ removed :: entities archetype'
  ∧ (NoDup (entities archetype) →
     NoDup (entities archetype') ∧ removed ∉ entities archetype').
Proof.
  assert (entities archetype ≡ₚ removed :: entities archetype') as Hperm.
  { unfold SwapRemove in Hrun.
    destruct (at_index (entities archetype) i) as [r|] eqn:Hr; [|done].
    simpl in Hrun.
    destruct (at_index (entities archetype)
                (Z.of_nat (length (entities archetype)) - 1)) as [z|] eqn:Hz; [|done].
    simpl in Hrun. injection Hrun as -> <-. simpl.
    apply at_index_Some in Hr as [Hi Hr]. apply at_index_Some in Hz as [_ Hz].
    unfold slice_to, set_index. rewrite length_insert.
    rewrite swap_with_last_perm.
    - by apply delete_Permutation.
    - by apply lookup_lt_Some in Hr.
    - rewrite last_lookup. rewrite <- Hz. f_equal. lia. }
  split; [done|]. intros Hnd. rewrite Hperm in Hnd.
  apply NoDup_cons in Hnd as [Hnotin Hnd]. done.
Qed.

End ArchetypeMore.

(** ** LayoutMatches on every input *)
Section LayoutMatchesMore.
Import golang storage.
Context {Entity ComponentType : Type} `{!EqDecision ComponentType}.
Implicit Types (archetype : Archetype Entity ComponentType)
               (cs : list ComponentType).

(** X4. The answer of [LayoutMatches] does not depend on the order in which
    the component types are listed, nor on the order in which the layout holds
    them; and every archetype matches the component list of its own layout,
    in any order. *)
Theorem LayoutMatches_order_irrelevant archetype archetype' cs cs'
    (Hlayout : Components (layout archetype) ≡ₚ Components (layout archetype'))
    (Hcs : cs ≡ₚ cs') :
  LayoutMatches archetype cs = LayoutMatches archetype' cs'
  ∧ (cs ≡ₚ Components (layout archetype) → LayoutMatches archetype cs = true).
Proof.
  split.
  - apply eq_true_iff_eq. rewrite !LayoutMatches_true.
    rewrite (Permutation_length Hlayout), (Permutation_length Hcs).
    split; intros [Hlen Hin]; (split; [done|]); intros c Hc.
    + rewrite <- Hlayout. apply Hin. by rewrite Hcs.
    + rewrite Hlayout. apply Hin. by rewrite <- Hcs.
  - intros Hown. apply LayoutMatches_true. split.
    + by rewrite (Permutation_length Hown).
    + intros c Hc. by rewrite <- Hown.
Qed.

(** X5. [LayoutMatches] answers [false] exactly when the two lengths differ
    or some listed component type is not in the layout; on the empty list it
    answers [true] exactly for the empty layout. *)
Theorem LayoutMatches_false_iff archetype cs :
  (LayoutMatches archetype cs = false
   ↔ length (Components (layout archetype)) ≠ length cs
     ∨ Exists (λ c, c ∉ Components (layout archetype)) cs)
  ∧ (LayoutMatches archetype [] = true ↔ Components (layout archetype) = []).
Proof.
  split.
  - rewrite <- not_true_iff_false, LayoutMatches_true. split.
    + intros Hnot.
      destruct (decide (length (Components (layout archetype)) = length cs))
        as [Hlen|Hlen]; [|by left].
      right. apply not_Forall_Exists; [apply _|]. intros Hall.
      apply Hnot. split; [done|]. by apply Forall_forall.
    + intros [Hlen|Hex] [Hlen' Hall]; [done|].
      apply Exists_exists in Hex as (c & Hc & Hnotin). by apply Hnotin, Hall.
  - rewrite LayoutMatches_true. split.
    + intros [Hlen _]. by apply nil_length_inv.
    + intros ->. split; [done|]. intros c Hc. by apply elem_of_nil in Hc.
Qed.

End LayoutMatchesMore.

(** X4, for the layout [{1, 2}] held as [2, 1] and listed as [1, 2]. *)
Lemma LayoutMatches_order_irrelevant_witness :
  let a := storage.mkArchetype (Entity := nat) 0 [] (storage.mkLayout [1%nat; 2%nat]) in
  let a' := storage.mkArchetype (Entity := nat) 0 [] (storage.mkLayout [2%nat; 1%nat]) in
  storage.LayoutMatches a [2%nat; 1%nat] = storage.LayoutMatches a' [1%nat; 2%nat].
Proof.
  intros a a'.
  exact (proj1 (LayoutMatches_order_irrelevant a a' [2%nat; 1%nat] [1%nat; 2%nat]
                  (Permutation_swap 2%nat 1%nat []) (Permutation_swap 1%nat 2%nat []))).
Defined.

(** X3, on the middle slot of three entities. *)
Lemma SwapRemove_Permutation_witness :
  let a := storage.mkArchetype (ComponentType := nat) 0 [10%nat; 20%nat; 30%nat]
             (storage.mkLayout []) in
  let a' := storage.mkArchetype (ComponentType := nat) 0 [10%nat; 30%nat]
              (storage.mkLayout []) in
  storage.SwapRemove a 1 = Some (20%nat, a')
  ∧ storage.entities a ≡ₚ 20%nat :: storage.entities a'.
Proof.
  intros a a'. split; [reflexivity|].
  exact (proj1 (SwapRemove_Permutation a 1 20%nat a' eq_refl)).
Defined.

(** ** The archetype store: lookups after pushes, and the index fields *)
Section StoreMore.
Import golang storage.
Context {Entity ComponentType : Type}.
Implicit Types (a : archetypeStorageImpl Entity ComponentType)
               (op : StoreOp Entity ComponentType)
               (items : list (ArchetypeIndex * Layout ComponentType)).

Lemma push_all_archs a items :
  archs (push_all a items)
  = archs a ++ ((λ item, NewArchetype item.1 item.2) <$> items).
Proof.
  revert a. induction items as [|item items IH]; intros a; simpl.
  - by rewrite app_nil_r.
  - unfold push_all in *. simpl. rewrite IH. simpl. by rewrite <- app_assoc.
Qed.

(** X6. After any sequence of [PushArchetype] calls, [Count] has grown by
    their number, [Archetype(Count_before + k)] is the new, empty archetype of
    the k-th call, every index valid before answers as before, and
    [Archetype(j)] panics exactly for [j] below zero or at or beyond the new
    [Count]. *)
Theorem push_all_lookup a items :
  Count (push_all a items) = (Count a + length items)%nat
  ∧ (∀ (k : nat) i l, items !! k = Some (i, l) →
       Archetype_at (push_all a items) (Z.of_nat (Count a + k))
       = Some (NewArchetype i l))
  ∧ (∀ j, 0 <= j < Z.of_nat (Count a) →
       Archetype_at (push_all a items) j = Archetype_at a j)
  ∧ (∀ j, Archetype_at (push_all a items) j = None
          ↔ j < 0 ∨ Z.of_nat (Count a + length items) <= j).
Proof.
  assert (Count (push_all a items) = (Count a + length items)%nat) as Hcount.
  { unfold Count. rewrite push_all_archs, length_app, length_fmap. done. }
  split; [done|]. split; [|split].
  - intros k i l Hk. unfold Archetype_at. rewrite at_index_of_nat, push_all_archs.
    unfold Count. rewrite lookup_app_r by lia.
    replace (length (archs a) + k - length (archs a))%nat with k by lia.
    rewrite list_lookup_fmap, Hk. done.
  - intros j [Hlo Hhi]. unfold Archetype_at, at_index, Count in *.
    case_decide; [|lia]. rewrite push_all_archs. apply lookup_app_l. lia.
  - intros j. unfold Archetype_at. rewrite at_index_None.
    fold (Count (push_all a items)). by rewrite Hcount.
Qed.

Lemma store_step_indexed a op a1 :
  indexed a → disciplined_from (Count a) [op] →
  store_step a op = Some a1 → indexed a1.
Proof.
  intros Hidx Hdisc Hstep. destruct op as [i l|at_ e|at_ ei]; simpl in *.
  - injection Hstep as <-. destruct Hdisc as [-> _].
    intros k arch Hk. unfold PushArchetype in Hk. simpl in Hk.
    apply lookup_app_Some in Hk as [Hk|[Hge Hk]]; [by apply Hidx|].
    apply list_lookup_singleton_Some in Hk as [Hk <-]. simpl.
    unfold Count. lia.
  - destruct (Archetype_at a at_) as [x|] eqn:Hx; simpl in Hstep; [|done].
    injection Hstep as <-. apply at_index_Some in Hx as [Hat Hx].
    intros k arch Hk. simpl in Hk. unfold set_index in Hk.
    apply list_lookup_insert_Some in Hk as [(<- & <- & _)|[_ Hk]].
    + simpl. by apply Hidx.
    + by apply Hidx.
  - destruct (Archetype_at a at_) as [x|] eqn:Hx; simpl in Hstep; [|done].
    destruct (SwapRemove x ei) as [[r x']|] eqn:Hsr; simpl in Hstep; [|done].
    injection Hstep as <-. apply at_index_Some in Hx as [Hat Hx].
    assert (index x' = index x) as Hix.
    { unfold SwapRemove in Hsr.
      destruct (at_index (entities x) ei); simpl in Hsr; [|done].
      destruct (at_index (entities x) _); simpl in Hsr; [|done].
      by injection Hsr as _ <-. }
    intros k arch Hk. simpl in Hk. unfold set_index in Hk.
    apply list_lookup_insert_Some in Hk as [(<- & <- & _)|[_ Hk]].
    + rewrite Hix. by apply Hidx.
    + by apply Hidx.
Qed.

Lemma disciplined_from_cons (n : nat) op (ops : list (StoreOp Entity ComponentType)) :
  disciplined_from n (op :: ops)
  ↔ disciplined_from n [op]
    ∧ disciplined_from (n + (if is_push op then 1 else 0)) ops.
Proof.
  destruct op; simpl; rewrite ?Nat.add_0_r, ?Nat.add_1_r; tauto.
Qed.

(** X7. The store never checks the index it is given, it only keeps it: when
    the caller passes the archetype count of the moment to every
    [PushArchetype], then along every run of pushes and entity operations
    each archetype's index field is its position in the store. *)
Theorem store_run_indexed a ops a'
    (Hidx : indexed a)
    (Hdisc : disciplined_from (Count a) ops)
    (Hrun : store_run a ops = Some a') :
  indexed a'.
Proof.
  revert a Hidx Hdisc Hrun. induction ops as [|op ops IH]; intros a Hidx Hdisc Hrun.
  - simpl in Hrun. by injection Hrun as <-.
  - simpl in Hrun.
    destruct (store_step a op) as [a1|] eqn:Hstep; simpl in Hrun; [|done].
    apply disciplined_from_cons in Hdisc as [Hop Hrest].
    apply (IH a1); [by apply (store_step_indexed a op) | | done].
    by rewrite (store_step_Count _ _ _ Hstep).
Qed.

(** X8. An entity operation ([PushEntity] or [SwapRemove] through
    [Archetype(i)]) that does not panic leaves [Count] as it is and changes at
    most one archetype of the store. *)
Theorem store_entity_op_frame a op a'
    (Hop : is_push op = false)
    (Hstep : store_step a op = Some a') :
  Count a' = Count a
  ∧ ∀ k1 k2 : nat,
      archs a' !! k1 ≠ archs a !! k1 → archs a' !! k2 ≠ archs a !! k2 → k1 = k2.
Proof.
  split.
  { rewrite (store_step_Count _ _ _ Hstep), Hop. lia. }
  assert (∃ (n : nat) x, archs a' = <[n := x]> (archs a)) as (n & x & ->).
  { destruct op as [i l|at_ e|at_ ei]; simpl in *; [done| |].
    - destruct (Archetype_at a at_) as [y|]; simpl in Hstep; [|done].
      injection Hstep as <-. by eexists _, _.
    - destruct (Archetype_at a at_) as [y|]; simpl in Hstep; [|done].
      destruct (SwapRemove y ei) as [[r y']|]; simpl in Hstep; [|done].
      injection Hstep as <-. by eexists _, _. }
  intros k1 k2 H1 H2.
  destruct (decide (n = k1)) as [<-|Hn1];
    [|by rewrite list_lookup_insert_ne in H1].
  destruct (decide (n = k2)) as [<-|Hn2]; [done|].
  by rewrite list_lookup_insert_ne in H2.
Qed.

End StoreMore.

(** X7, on a run that pushes two archetypes at the indices 0 and 1 and adds
    an entity to the first. *)
Lemma store_run_indexed_witness :
  let ops : list (storage.StoreOp nat nat) :=
    [storage.OpPushArchetype 0 (storage.mkLayout [1%nat]);
     storage.OpPushEntity 0 5%nat;
     storage.OpPushArchetype 1 (storage.mkLayout [2%nat])] in
  ∃ a', storage.store_run storage.NewArchetypeAccessor ops = Some a' ∧ indexed a'.
Proof.
  intros ops. eexists. split; [reflexivity|].
  apply (store_run_indexed storage.NewArchetypeAccessor ops).
  - intros k arch Hk. destruct k; discriminate.
  - simpl. repeat split.
  - reflexivity.
Defined.

(** X8, on a push of an entity to the first of two archetypes. *)
Lemma store_entity_op_frame_witness :
  let a := two_archetypes in
  ∃ a', storage.store_step a (storage.OpPushEntity 0 5%nat) = Some a'
        ∧ storage.Count a' = storage.Count a.
Proof.
  intros a. eexists. split; [reflexivity|].
  exact (proj1 (store_entity_op_frame a (storage.OpPushEntity 0 5%nat) _ eq_refl eq_refl)).
Defined.

(** ** The caches of a query, world by world *)
Section CachePerWorld.
Import storage cardinal.
Context {Entity ComponentType EntryT : Type} `{!EqDecision ComponentType}.
Implicit Types (q : Query ComponentType) (w : World Entity ComponentType EntryT)
               (accessor : StorageAccessor Entity ComponentType).

Lemma evaluateQuery_lookup_other q w accessor (wid : Z) :
  wid ≠ ID w →
  layoutMatches (evaluateQuery q w accessor).1 !! wid = layoutMatches q !! wid.
Proof.
  intros Hne. unfold evaluateQuery. simpl. rewrite lookup_insert_ne by done.
  unfold ensure_cache. destruct (layoutMatches q !! ID w); [done|].
  by rewrite lookup_insert_ne.
Qed.

Lemma current_cache_lookup q q' (wid : Z) :
  layoutMatches q' !! wid = layoutMatches q !! wid →
  current_cache q' wid = current_cache q wid.
Proof.
  intros H. destruct (layoutMatches q !! wid) as [c|] eqn:Hc.
  - by rewrite (current_cache_Some q' wid c), (current_cache_Some q wid c).
  - by rewrite (current_cache_None q' wid), (current_cache_None q wid).
Qed.

(** X9. The caches of a query are kept world id by world id: an evaluation
    against [w] leaves the filter and the cache entry of every other world id
    as they are, so the result of an evaluation against a world of another id
    is the same before and after it. *)
Theorem evaluateQuery_other_worlds q w accessor
    (w2 : World Entity ComponentType EntryT) accessor2
    (Hother : ID w2 ≠ ID w) :
  layoutMatches (evaluateQuery q w accessor).1 !! ID w2 = layoutMatches q !! ID w2
  ∧ filter (evaluateQuery q w accessor).1 = filter q
  ∧ (evaluateQuery (evaluateQuery q w accessor).1 w2 accessor2).2
    = (evaluateQuery q w2 accessor2).2.
Proof.
  pose proof (evaluateQuery_lookup_other q w accessor (ID w2) Hother) as Hlk.
  split; [done|]. split; [done|].
  rewrite !evaluateQuery_result.
  by rewrite (current_cache_lookup q _ (ID w2) Hlk).
Qed.

(** X10. The cache is keyed by the world id alone: an evaluation against a
    second world with the same id starts from the list and the mark the first
    world left, so its result is the first world's result followed by what a
    search of the second world's index finds from the first world's archetype
    count on. *)
Theorem evaluateQuery_same_id q w accessor
    (w2 : World Entity ComponentType EntryT) accessor2
    (Hsame : ID w2 = ID w) :
  (evaluateQuery (evaluateQuery q w accessor).1 w2 accessor2).2
  = (evaluateQuery q w accessor).2
    ++ SearchFrom (Index accessor2) (filter q) (storage.Count (Archetypes accessor)).
Proof.
  rewrite (evaluateQuery_result (evaluateQuery q w accessor).1), Hsame.
  by rewrite (current_cache_Some _ _ _ (evaluateQuery_cache q w accessor)).
Qed.

End CachePerWorld.

(** X9, at the concrete world (id 1) and a world of id 2 over the same
    storage. *)
Lemma evaluateQuery_other_worlds_witness :
  let w2 : cardinal.World nat nat nat :=
    cardinal.mkWorld 2 example.accessor0 (λ e, e) in
  cardinal.ID w2 ≠ cardinal.ID example.w0
  ∧ (cardinal.evaluateQuery
       (cardinal.evaluateQuery example.q0 example.w0 example.accessor0).1
       w2 example.accessor0).2
    = (cardinal.evaluateQuery example.q0 w2 example.accessor0).2.
Proof.
  intros w2.
  assert (cardinal.ID w2 ≠ cardinal.ID example.w0) as Hne by (simpl; lia).
  split; [exact Hne|].
  exact (proj2 (proj2 (evaluateQuery_other_worlds example.q0 example.w0
                         example.accessor0 w2 example.accessor0 Hne))).
Defined.

(** X10, at the concrete world and a second world of the same id. *)
Lemma evaluateQuery_same_id_witness :
  let w2 : cardinal.World nat nat nat :=
    cardinal.mkWorld 1 example.accessor0 (λ e, e) in
  cardinal.ID w2 = cardinal.ID example.w0
  ∧ (cardinal.evaluateQuery
       (cardinal.evaluateQuery example.q0 example.w0 example.accessor0).1
       w2 example.accessor0).2
    = [0; 2].
Proof.
  intros w2. split; [reflexivity|].
  rewrite (evaluateQuery_same_id example.q0 example.w0 example.accessor0 w2
             example.accessor0 eq_refl).
  reflexivity.
Defined.

(** ** Count, Each and First: agreement and panics *)
Section CountEachFirst.
Import storage cardinal.
Context {Entity ComponentType EntryT : Type} `{!EqDecision ComponentType}.
Implicit Types (q : Query ComponentType) (w : World Entity ComponentType EntryT)
               (archs : archetypeStorageImpl Entity ComponentType)
               (indices : list ArchetypeIndex).

Lemma foldl_count {B : Type} (xs : list B) (n : nat) :
  foldl (λ n _, S n) n xs = (n + length xs)%nat.
Proof.
  revert n. induction xs as [|x xs IH]; intros n; simpl; [lia|].
  rewrite IH. lia.
Qed.

(** X11. [Count] is the number of times [Each] calls its callback: on a
    world whose index and store are in step and a query whose cached indices
    are in the store, [Count] returns the number of entries [Each] visits, and
    [Each] with a callback that counts returns the same number; both leave the
    query in the same state. *)
Theorem Count_is_number_of_visits q w
    (Hsync : accessor_synced (World_StorageAccessor w))
    (Hvalid : cache_valid (World_StorageAccessor w) (current_cache q (ID w))) :
  cardinal.Count q w
  = Some ((evaluateQuery q w (World_StorageAccessor w)).1, length (visited q w))
  ∧ Each q w (λ _ n, S n) 0%nat
    = Some ((evaluateQuery q w (World_StorageAccessor w)).1, length (visited q w)).
Proof.
  split.
  - unfold cardinal.Count, visited.
    pose proof (evaluateQuery_valid q w Hsync Hvalid) as Hv.
    destruct (evaluateQuery q w (World_StorageAccessor w)) as [q' r]. simpl in *.
    rewrite Count_loop_spec by done. simpl. by rewrite length_fmap.
  - rewrite Each_run by done. by rewrite foldl_count.
Qed.

Lemma Archetype_at_invalid archs i :
  ¬ (0 <= i < Z.of_nat (storage.Count archs)) → Archetype_at archs i = None.
Proof.
  intros H. unfold Archetype_at. apply at_index_None. unfold storage.Count in H. lia.
Qed.

Lemma Count_loop_None archs indices (ret : nat) :
  Count_loop archs indices ret = None ↔ ¬ indices_valid archs indices.
Proof.
  revert ret. induction indices as [|i indices IH]; intros ret; simpl.
  - split; [done|]. intros H. destruct H. constructor.
  - destruct (decide (0 <= i < Z.of_nat (storage.Count archs))) as [Hi|Hi].
    + destruct (Archetype_at_valid archs i Hi) as [x ->]. simpl. rewrite IH.
      unfold indices_valid. rewrite Forall_cons. tauto.
    + rewrite (Archetype_at_invalid archs i Hi). simpl.
      unfold indices_valid. rewrite Forall_cons. tauto.
Qed.

Lemma Each_loop_None {S : Type} archs (f : Entity → S → S) indices (s : S) :
  Each_loop archs f indices s = None ↔ ¬ indices_valid archs indices.
Proof.
  revert s. induction indices as [|i indices IH]; intros s; simpl.
  - split; [done|]. intros H. destruct H. constructor.
  - destruct (decide (0 <= i < Z.of_nat (storage.Count archs))) as [Hi|Hi].
    + destruct (Archetype_at_valid archs i Hi) as [x ->]. simpl. rewrite IH.
      unfold indices_valid. rewrite Forall_cons. tauto.
    + rewrite (Archetype_at_invalid archs i Hi). simpl.
      unfold indices_valid. rewrite Forall_cons. tauto.
Qed.

(** X12. [Count] and [Each] panic exactly when the evaluation yields an
    index that is not in the archetype store (a cached one, or one of a layout
    the index has and the store has not); whatever the callback, [Each] panics
    when [Count] does. *)
Theorem Count_Each_panic_iff {S : Type} q w (callback : EntryT → S → S) (s : S) :
  (cardinal.Count q w = None
   ↔ ¬ indices_valid (Archetypes (World_StorageAccessor w))
         (evaluateQuery q w (World_StorageAccessor w)).2)
  ∧ (Each q w callback s = None ↔ cardinal.Count q w = None).
Proof.
  assert (cardinal.Count q w = None
          ↔ ¬ indices_valid (Archetypes (World_StorageAccessor w))
                (evaluateQuery q w (World_StorageAccessor w)).2) as HC.
  { unfold cardinal.Count.
    destruct (evaluateQuery q w (World_StorageAccessor w)) as [q' r]. simpl.
    rewrite <- (Count_loop_None _ r 0).
    destruct (Count_loop (Archetypes (World_StorageAccessor w)) r 0); simpl;
      split; congruence. }
  split; [done|]. rewrite HC. unfold Each.
  destruct (evaluateQuery q w (World_StorageAccessor w)) as [q' r]. simpl.
  rewrite <- (Each_loop_None _ (λ e, callback (Entry w e)) r s).
  destruct (Each_loop _ _ r s); simpl; split; congruence.
Qed.

(** The first index of [indices] that is not in the store comes before any
    archetype with an entity. *)
Lemma First_loop_None archs indices :
  First_loop archs indices = None
  ↔ ∃ (k : nat) i,
      indices !! k = Some i
      ∧ Archetype_at archs i = None
      ∧ ∀ (k' : nat) i', (k' < k)%nat → indices !! k' = Some i' →
          ∃ arch, Archetype_at archs i' = Some arch ∧ Entities arch = [].
Proof.
  induction indices as [|i indices IH]; simpl.
  - split; [done|]. by intros (k & i & Hk & _).
  - destruct (Archetype_at archs i) as [x|] eqn:Hx; simpl.
    + destruct (Entities x) as [|e es] eqn:Hes.
      * rewrite IH. split.
        -- intros (k & j & Hk & Hj & Hbefore). exists (S k), j.
           split; [done|]. split; [done|].
           intros [|k'] i' Hlt Hk'; simpl in Hk'.
           ++ injection Hk' as <-. by exists x.
           ++ apply (Hbefore k'); [lia | done].
        -- intros ([|k] & j & Hk & Hj & Hbefore); simpl in Hk.
           ++ injection Hk as <-. congruence.
           ++ exists k, j. split; [done|]. split; [done|].
              intros k' i' Hlt Hk'. apply (Hbefore (S k')); [lia | done].
      * split; [done|].
        intros ([|k] & j & Hk & Hj & Hbefore); simpl in Hk.
        -- injection Hk as <-. congruence.
        -- destruct (Hbefore 0%nat i ltac:(lia) eq_refl) as (arch & Harch & Hempty).
           congruence.
    + split; [|done]. intros _. exists 0%nat, i.
      split; [done|]. split; [done|]. intros k' i' Hlt. lia.
Qed.

(** X13. [First] short-circuits: it panics exactly when an index that is not
    in the store is reached before any archetype with an entity, every
    archetype before it being empty.  An index outside the store that comes
    after the first entity is never looked at. *)
Theorem First_panic_iff q w :
  First q w = None
  ↔ ∃ (k : nat) i,
      (evaluateQuery q w (World_StorageAccessor w)).2 !! k = Some i
      ∧ Archetype_at (Archetypes (World_StorageAccessor w)) i = None
      ∧ ∀ (k' : nat) i', (k' < k)%nat →
          (evaluateQuery q w (World_StorageAccessor w)).2 !! k' = Some i' →
          ∃ arch, Archetype_at (Archetypes (World_StorageAccessor w)) i' = Some arch
                  ∧ Entities arch = [].
Proof.
  rewrite <- First_loop_None. unfold First.
  destruct (evaluateQuery q w (World_StorageAccessor w)) as [q' r]. simpl.
  destruct r as [|i r]; [done|].
  destruct (First_loop (Archetypes (World_StorageAccessor w)) (i :: r));
    split; congruence.
Qed.

End CountEachFirst.

(** X11, at the concrete world: two entries are visited. *)
Lemma Count_is_number_of_visits_witness :
  accessor_synced example.accessor0
  ∧ cache_valid example.accessor0 (cardinal.current_cache example.q0 1)
  ∧ cardinal.Count example.q0 example.w0
    = Some ((cardinal.evaluateQuery example.q0 example.w0 example.accessor0).1,
            length (visited example.q0 example.w0)).
Proof.
  split; [reflexivity|]. split; [apply Forall_nil_2|].
  exact (proj1 (Count_is_number_of_visits example.q0 example.w0
                  example_synced example_cache_valid)).
Defined.

(** ** The cache against a search from scratch *)
Section CacheExact.
Import storage cardinal.
Context {Entity ComponentType EntryT : Type} `{!EqDecision ComponentType}.
Implicit Types (q : Query ComponentType) (w : World Entity ComponentType EntryT)
               (accessor : StorageAccessor Entity ComponentType)
               (f : filter.LayoutFilter ComponentType)
               (ls : list (list ComponentType)) (idx : storage.Index ComponentType).

Lemma SearchFrom_tests_app f (i : nat) ls1 ls2 :
  SearchFrom_tests f i (ls1 ++ ls2)
  = SearchFrom_tests f i ls1 ++ SearchFrom_tests f (i + length ls1) ls2.
Proof.
  revert i. induction ls1 as [|l ls1 IH]; intros i; simpl.
  - by rewrite Nat.add_0_r.
  - rewrite IH. do 3 f_equal. lia.
Qed.

Lemma SearchFrom_tests_elem f (i : nat) ls (n : nat) b :
  (n, b) ∈ SearchFrom_tests f i ls
  ↔ (i <= n)%nat ∧ ∃ l, ls !! (n - i)%nat = Some l ∧ b = filter.MatchesLayout f l.
Proof.
  split; [apply SearchFrom_tests_outcome|].
  revert i. induction ls as [|l0 ls IH]; intros i (Hle & l & Hl & ->); [done|].
  simpl. destruct (decide (n = i)) as [->|Hne].
  - rewrite Nat.sub_diag in Hl. injection Hl as ->. by left.
  - right. apply IH. split; [lia|]. exists l. split; [|done].
    replace (n - i)%nat with (S (n - S i)) in Hl by lia. done.
Qed.

(** A search from scratch is a search of the first [n] layouts followed by a
    search from [n] on. *)
Lemma SearchFrom_split idx f (n : nat) :
  (n <= length (layouts idx))%nat →
  SearchFrom idx f 0
  = SearchFrom (mkIndex (take n (layouts idx))) f 0 ++ SearchFrom idx f n.
Proof.
  intros Hn. unfold SearchFrom. simpl. rewrite !drop_0.
  rewrite <- (take_drop n (layouts idx)) at 1.
  rewrite SearchFrom_tests_app, filter_app, fmap_app.
  rewrite length_take. by replace (0 + n `min` length (layouts idx))%nat with n by lia.
Qed.

Lemma SearchFrom_elem idx f (i : Z) :
  i ∈ SearchFrom idx f 0
  ↔ ∃ (n : nat) l, i = Z.of_nat n ∧ layouts idx !! n = Some l
                   ∧ filter.MatchesLayout f l = true.
Proof.
  unfold SearchFrom. rewrite drop_0, list_elem_of_fmap. split.
  - intros ([n b] & -> & H). apply list_elem_of_filter in H as [Hb H]. simpl in *.
    apply SearchFrom_tests_elem in H as (_ & l & Hl & ->).
    exists n, l. rewrite Nat.sub_0_r in Hl. done.
  - intros (n & l & -> & Hl & Hm). exists (n, true). split; [done|].
    apply list_elem_of_filter. split; [done|].
    apply SearchFrom_tests_elem. split; [lia|]. exists l.
    by rewrite Nat.sub_0_r.
Qed.

Lemma SearchFrom_NoDup idx f (start : nat) : NoDup (SearchFrom idx f start).
Proof.
  unfold SearchFrom.
  assert (NoDup (base.filter (λ t : nat * bool, t.2 = true)
                   (SearchFrom_tests f start (drop start (layouts idx)))).*1) as Hnd.
  { apply (sublist_NoDup _ (SearchFrom_tests f start (drop start (layouts idx))).*1).
    - rewrite SearchFrom_tests_indices. apply NoDup_seq.
    - apply fmap_sublist, sublist_filter. }
  set (X := base.filter (λ t : nat * bool, t.2 = true)
              (SearchFrom_tests f start (drop start (layouts idx)))) in *.
  replace ((λ t : nat * bool, Z.of_nat t.1) <$> X) with (Z.of_nat <$> X.*1)
    by (by rewrite <- list_fmap_compose).
  by apply (NoDup_fmap_2 Z.of_nat).
Qed.

(** X14. The cache never changes what a query finds.  When the cache holds
    what a search finds among the layouts below its mark, an evaluation
    returns what a search of the whole index from scratch returns: the index
    of every layout that matches the filter, each once; and the cache it
    leaves is again of that kind. *)
Theorem evaluateQuery_is_full_search q w accessor
    (Hsync : accessor_synced accessor)
    (Hexact : cache_exact (Index accessor) (filter q) (current_cache q (ID w))) :
  (evaluateQuery q w accessor).2 = SearchFrom (Index accessor) (filter q) 0
  ∧ (∀ i, i ∈ (evaluateQuery q w accessor).2
          ↔ ∃ (n : nat) l, i = Z.of_nat n
              ∧ layouts (Index accessor) !! n = Some l
              ∧ filter.MatchesLayout (filter q) l = true)
  ∧ NoDup (evaluateQuery q w accessor).2
  ∧ cache_exact (Index accessor) (filter q)
      (current_cache (evaluateQuery q w accessor).1 (ID w)).
Proof.
  destruct Hexact as [Hseen Hcached].
  assert ((evaluateQuery q w accessor).2 = SearchFrom (Index accessor) (filter q) 0)
    as Hfull.
  { rewrite evaluateQuery_result, Hcached. symmetry. by apply SearchFrom_split. }
  split; [done|]. split; [|split].
  - intros i. rewrite Hfull. apply SearchFrom_elem.
  - rewrite Hfull. apply SearchFrom_NoDup.
  - rewrite (current_cache_Some _ _ _ (evaluateQuery_cache q w accessor)).
    unfold cache_exact. cbn [seen archetypes]. unfold accessor_synced in Hsync.
    rewrite <- Hsync. split; [done|]. rewrite take_ge by done.
    rewrite Hfull. by destruct (Index accessor).
Qed.

(** The cache of a new query is exact, and an exact cache stays exact when
    an archetype is created. *)
Lemma cache_exact_new idx f (wid : Z) : cache_exact idx f (current_cache (NewQuery f) wid).
Proof.
  rewrite current_cache_None by apply lookup_empty.
  split; simpl; [lia | done].
Qed.

Lemma cache_exact_push idx f (c : cache) (l : Layout ComponentType) :
  cache_exact idx f c → cache_exact (Index_Push idx l) f c.
Proof.
  intros [Hseen Hcached]. split; simpl.
  - rewrite length_app. lia.
  - by rewrite take_app_le.
Qed.

(** X15. After an evaluation, the creation of one archetype costs the next
    evaluation one filter test, on the new archetype: its index is appended to
    the result when its layout matches, and the result is unchanged when it
    does not. *)
Theorem evaluateQuery_after_push q w accessor (i : ArchetypeIndex)
    (l : Layout ComponentType)
    (Hsync : accessor_synced accessor) :
  let q1 := (evaluateQuery q w accessor).1 in
  let accessor' :=
    mkStorageAccessor (Index_Push (Index accessor) l)
      (PushArchetype (Archetypes accessor) i l) in
  let matches := filter.MatchesLayout (filter q) (Components l) in
  evaluateQuery_tests q1 w accessor' = [(storage.Count (Archetypes accessor), matches)]
  ∧ (evaluateQuery q1 w accessor').2
    = (evaluateQuery q w accessor).2
      ++ (if matches then [Z.of_nat (storage.Count (Archetypes accessor))] else []).
Proof.
  intros q1 accessor' matches. subst q1.
  assert (drop (storage.Count (Archetypes accessor)) (layouts (Index accessor'))
          = [Components l]) as Hdrop.
  { simpl. unfold accessor_synced in Hsync. rewrite <- Hsync.
    by rewrite drop_app_length. }
  split.
  - unfold evaluateQuery_tests.
    rewrite (current_cache_Some _ _ _ (evaluateQuery_cache q w accessor)).
    cbn [seen]. by rewrite Hdrop.
  - rewrite (evaluateQuery_result (evaluateQuery q w accessor).1).
    rewrite (current_cache_Some _ _ _ (evaluateQuery_cache q w accessor)).
    cbn [seen archetypes]. f_equal. unfold SearchFrom. rewrite Hdrop.
    subst matches. cbn [SearchFrom_tests].
    change (filter (evaluateQuery q w accessor).1) with (filter q).
    by destruct (filter.MatchesLayout (filter q) (Components l)).
Qed.

Lemma SearchFrom_no_match idx f (start : nat) :
  Forall (λ l, filter.MatchesLayout f l = false) (layouts idx) →
  SearchFrom idx f start = [].
Proof.
  intros Hnone. unfold SearchFrom.
  assert (∀ (i : nat) ls, Forall (λ l, filter.MatchesLayout f l = false) ls →
            base.filter (λ t : nat * bool, t.2 = true) (SearchFrom_tests f i ls) = [])
    as Hempty.
  { intros i ls Hls. revert i. induction Hls as [|l ls Hl _ IH]; intros i; [done|].
    simpl. rewrite filter_cons. simpl. rewrite Hl.
    rewrite decide_False by done. apply IH. }
  rewrite Hempty; [done|]. by apply Forall_drop.
Qed.

(** X16. A query for which nothing is cached and whose filter no layout of
    the index matches finds nothing, whatever the state of the store: [Count]
    is 0, [First] answers [ok = false], and [Each] returns without a call of
    its callback. *)
Theorem Query_no_match {S : Type} q w (callback : EntryT → S → S) (s : S)
    (Hcache : archetypes (current_cache q (ID w)) = [])
    (Hnone : Forall (λ l, filter.MatchesLayout (filter q) l = false)
               (layouts (Index (World_StorageAccessor w)))) :
  cardinal.Count q w = Some ((evaluateQuery q w (World_StorageAccessor w)).1, 0%nat)
  ∧ First q w = Some ((evaluateQuery q w (World_StorageAccessor w)).1, None)
  ∧ Each q w callback s = Some ((evaluateQuery q w (World_StorageAccessor w)).1, s).
Proof.
  assert ((evaluateQuery q w (World_StorageAccessor w)).2 = []) as Hres.
  { rewrite evaluateQuery_result, Hcache. simpl. by apply SearchFrom_no_match. }
  unfold cardinal.Count, First, Each.
  destruct (evaluateQuery q w (World_StorageAccessor w)) as [q' r].
  simpl in Hres. subst r. done.
Qed.

End CacheExact.

(** X14, at the concrete world: the archetypes 0 and 2 hold component 1. *)
Lemma evaluateQuery_is_full_search_witness :
  accessor_synced example.accessor0
  ∧ cache_exact (cardinal.Index example.accessor0) (cardinal.filter example.q0)
      (cardinal.current_cache example.q0 1)
  ∧ (cardinal.evaluateQuery example.q0 example.w0 example.accessor0).2
    = storage.SearchFrom (cardinal.Index example.accessor0) (cardinal.filter example.q0) 0.
Proof.
  assert (cache_exact (cardinal.Index example.accessor0) (cardinal.filter example.q0)
            (cardinal.current_cache example.q0 1)) as Hexact.
  { exact (cache_exact_new (cardinal.Index example.accessor0)
             (filter.Contains [1%nat]) 1). }
  split; [reflexivity|]. split; [exact Hexact|].
  exact (proj1 (evaluateQuery_is_full_search example.q0 example.w0 example.accessor0
                  example_synced Hexact)).
Defined.

(** X15, at the concrete world, on the creation of an archetype of layout
    [{1, 3}]. *)
Lemma evaluateQuery_after_push_witness :
  accessor_synced example.accessor0
  ∧ cardinal.evaluateQuery_tests
      (cardinal.evaluateQuery example.q0 example.w0 example.accessor0).1 example.w0
      (cardinal.mkStorageAccessor
         (storage.Index_Push (cardinal.Index example.accessor0)
            (storage.mkLayout [1%nat; 3%nat]))
         (storage.PushArchetype (cardinal.Archetypes example.accessor0) 3
            (storage.mkLayout [1%nat; 3%nat])))
    = [(3%nat, true)].
Proof.
  split; [reflexivity|].
  exact (proj1 (evaluateQuery_after_push example.q0 example.w0 example.accessor0 3
                  (storage.mkLayout [1%nat; 3%nat]) example_synced)).
Defined.

(** X16, at the concrete world, for a filter on a component no archetype
    has. *)
Lemma Query_no_match_witness :
  let q := cardinal.NewQuery (filter.Contains [9%nat]) in
  cardinal.archetypes (cardinal.current_cache q 1) = []
  ∧ cardinal.Count q example.w0
    = Some ((cardinal.evaluateQuery q example.w0 example.accessor0).1, 0%nat).
Proof.
  intros q. split; [reflexivity|].
  refine (proj1 (Query_no_match q example.w0 (λ _ (n : nat), n) 0%nat eq_refl _)).
  apply (bool_decide_unpack _). vm_compute. exact I.
Defined.

(** ** The mock feed of the tests *)
Section MockMore.
Import iterator iterator_test.
Implicit Types (m : mockQuerier) (reqs : list QueryTransactionsRequest).

(** The request the mock holds after the calls [reqs]. *)
Lemma mock_last_request (r0 : option QueryTransactionsRequest) req reqs :
  from_option Some (Some req) (last reqs) = from_option Some r0 (last (req :: reqs)).
Proof.
  destruct reqs as [|r reqs]; [done|]. rewrite last_cons_cons.
  destruct (last (r :: reqs)) eqn:Hl; [done|]. by apply last_None in Hl.
Qed.

(** X17. With no error set, the mock answers the calls with the pages
    [ret[i]], [ret[i+1]], ... in order, whatever the requests ask for, and
    remembers the last request; a call after the last page panics. *)
Theorem mock_calls_in_order m reqs (Herr : retErr m = None) :
  ((i m + length reqs <= length (ret m))%nat →
   ∃ m', mock_calls m reqs
         = Some (m', inr <$> take (length reqs) (drop (i m) (ret m)))
         ∧ i m' = (i m + length reqs)%nat
         ∧ ret m' = ret m ∧ retErr m' = None
         ∧ request m' = from_option Some (request m) (last reqs))
  ∧ ((length (ret m) < i m + length reqs)%nat → reqs ≠ [] →
     mock_calls m reqs = None).
Proof.
  revert m Herr. induction reqs as [|req reqs IH]; intros m Herr.
  - split; [|done]. intros _. exists m. simpl. by rewrite Nat.add_0_r.
  - set (m1 := {| i := S (i m); retErr := None; ret := ret m;
                  request := Some req |}).
    destruct (IH m1 eq_refl) as [IHok IHpanic]. simpl in IHok, IHpanic.
    split.
    + intros Hlen. simpl in Hlen.
      destruct (lookup_lt_is_Some_2 (ret m) (i m) ltac:(lia)) as [page Hpage].
      destruct (IHok ltac:(lia)) as (m' & Hrun & Hi & Hret & Herr' & Hreq).
      exists m'. cbn [mock_calls]. unfold QueryTransactions. rewrite Herr, Hpage.
      cbn [mbind option_bind]. fold m1. rewrite Hrun. cbn [mbind option_bind].
      split; [|split; [simpl; lia | split; [done | split; [done|]]]].
      * do 2 f_equal. by rewrite (drop_S (ret m) page (i m) Hpage).
      * rewrite Hreq. apply mock_last_request.
    + intros Hlen _. simpl in Hlen. cbn [mock_calls]. unfold QueryTransactions.
      rewrite Herr.
      destruct (ret m !! i m) as [page|] eqn:Hpage; [|done].
      cbn [mbind option_bind]. fold m1.
      apply lookup_lt_Some in Hpage.
      rewrite IHpanic; [done | lia |]. intros ->. simpl in Hlen. lia.
Qed.

(** X18. With an error set, the mock answers every call with that error,
    never moves on in its pages, and still remembers the last request. *)
Theorem mock_calls_error m reqs (e : string) (Herr : retErr m = Some e) :
  ∃ m', mock_calls m reqs = Some (m', replicate (length reqs) (inl e))
        ∧ i m' = i m ∧ ret m' = ret m ∧ retErr m' = Some e
        ∧ request m' = from_option Some (request m) (last reqs).
Proof.
  revert m Herr. induction reqs as [|req reqs IH]; intros m Herr.
  - by exists m.
  - set (m1 := {| i := i m; retErr := Some e; ret := ret m; request := Some req |}).
    destruct (IH m1 eq_refl) as (m' & Hrun & Hi & Hret & Herr' & Hreq).
    exists m'. cbn [mock_calls]. unfold QueryTransactions. rewrite Herr.
    cbn [mbind option_bind]. fold m1. rewrite Hrun.
    cbn [mbind option_bind]. split; [done|].
    split; [done | split; [done | split; [done|]]].
    rewrite Hreq. apply mock_last_request.
Qed.

End MockMore.

(** ** Page keys *)
Section KeysMore.
Import iterator iterator_test.

(** X19. [parsePageKey] panics exactly on keys of fewer than eight bytes,
    reads the first eight bytes only, and on bytes yields a [uint64]. *)
Theorem parsePageKey_bounds (key : list Z) :
  (parsePageKey key = None ↔ (length key < 8)%nat)
  ∧ parsePageKey (take 8 key) = parsePageKey key
  ∧ (valid_bytes key → ∀ n, parsePageKey key = Some n → 0 <= n < 2 ^ 64).
Proof.
  do 8 (destruct key as [|? key];
        [split; [simpl; split; [lia | done] | split; [done | intros _ n; done]]|]).
  split; [|split].
  - simpl. split; [done | lia].
  - done.
  - intros Hb n Hn. unfold valid_bytes in Hb.
    do 8 (apply Forall_cons in Hb as [? Hb]).
    simpl in Hn. injection Hn as <-. lia.
Qed.

(** X20. On eight bytes [parsePageKey] is the inverse of the key of a tick:
    the key of the tick it reads is the key it was given, and reading that
    key gives the tick again; so two different keys of eight bytes are keys
    of different ticks. *)
Theorem tick_key_parsePageKey (key : list Z) (n : Z)
    (Hlen : length key = 8%nat)
    (Hbytes : valid_bytes key)
    (Hparse : parsePageKey key = Some n) :
  tick_key n = key ∧ parsePageKey (tick_key n) = Some n.
Proof.
  assert (tick_key n = key) as Hkey.
  { do 8 (destruct key as [|? key]; [done|]). destruct key; [|done].
    simpl in Hparse. injection Hparse as <-.
    unfold valid_bytes in Hbytes.
    do 8 (apply Forall_cons in Hbytes as [? Hbytes]).
    unfold tick_key. cbn [fmap list_fmap foldl].
    change (8 * (7 - 0)) with 56. change (8 * (7 - 1)) with 48.
    change (8 * (7 - 2)) with 40. change (8 * (7 - 3)) with 32.
    change (8 * (7 - 4)) with 24. change (8 * (7 - 5)) with 16.
    change (8 * (7 - 6)) with 8. change (8 * (7 - 7)) with 0.
    change (2 ^ 56) with 72057594037927936. change (2 ^ 48) with 281474976710656.
    change (2 ^ 40) with 1099511627776. change (2 ^ 32) with 4294967296.
    change (2 ^ 24) with 16777216. change (2 ^ 16) with 65536.
    change (2 ^ 8) with 256. change (2 ^ 0) with 1.
    repeat f_equal; Z.to_euclidean_division_equations; lia. }
  split; [done|]. by rewrite Hkey.
Qed.

End KeysMore.

(** X17, on a mock of two pages and two calls. *)
Lemma mock_calls_in_order_witness :
  let p1 := iterator.mkResponse [] (Some [1]) in
  let p2 := iterator.mkResponse [] None in
  let reqs := [iterator.mkRequest "ns" None; iterator.mkRequest "ns" (Some [1])] in
  iterator_test.retErr (iterator_test.scripted [p1; p2]) = None
  ∧ ∃ m', mock_calls (iterator_test.scripted [p1; p2]) reqs
          = Some (m', [inr p1; inr p2]).
Proof.
  intros p1 p2 reqs. split; [reflexivity|].
  destruct (proj1 (mock_calls_in_order (iterator_test.scripted [p1; p2]) reqs eq_refl)
              ltac:(simpl; lia)) as (m' & Hrun & _).
  exists m'. exact Hrun.
Defined.

(** X18, on the mock of [TestIteratorReturnsErrorIfQueryFails]. *)
Lemma mock_calls_error_witness :
  let m := iterator_test.mkMock 0 (Some "some error") [] None in
  iterator_test.retErr m = Some "some error"
  ∧ ∃ m', mock_calls m [iterator.mkRequest "foo" None; iterator.mkRequest "foo" None]
          = Some (m', [inl "some error"; inl "some error"]).
Proof.
  intros m. split; [reflexivity|].
  destruct (mock_calls_error m
              [iterator.mkRequest "foo" None; iterator.mkRequest "foo" None]
              "some error" eq_refl) as (m' & Hrun & _).
  exists m'. exact Hrun.
Defined.

(** X20, on the key of tick 5 of [TestIteratorStartRange]. *)
Lemma tick_key_parsePageKey_witness :
  length [0; 0; 0; 0; 0; 0; 0; 5] = 8%nat
  ∧ valid_bytes [0; 0; 0; 0; 0; 0; 0; 5]
  ∧ iterator_test.parsePageKey [0; 0; 0; 0; 0; 0; 0; 5] = Some 5
  ∧ iterator.tick_key 5 = [0; 0; 0; 0; 0; 0; 0; 5].
Proof.
  assert (valid_bytes [0; 0; 0; 0; 0; 0; 0; 5]) as Hb.
  { apply (bool_decide_unpack _). vm_compute. exact I. }
  split; [reflexivity|]. split; [exact Hb|]. split; [reflexivity|].
  exact (proj1 (tick_key_parsePageKey [0; 0; 0; 0; 0; 0; 0; 5] 5 eq_refl Hb eq_refl)).
Defined.
